(** * micro-batching: the [MicroBatchProcessor] coordinator of src/index.ts

    The class is embedded together with the part of its JavaScript host
    that it talks to: the timers created by [setTimeout], the promises
    created by [submitJob], the calls of [batchProcessor.process] that
    have not settled yet and the [async] frames suspended on them.
    One [step] of the model is one run-to-completion turn of the event
    loop: a call of [submitJob] or [shutdown], a timeout that fires, or
    a call of the batch processor that settles. *)

From Stdlib Require Import String List ZArith QArith Bool Arith Lia.
Import ListNotations.
Open Scope string_scope.
Open Scope nat_scope.
Open Scope list_scope.

Set Implicit Arguments.

(** ** JavaScript numbers

    [batchSize] and [frequencyMs] are JavaScript numbers.  Every finite
    binary64 value is a rational, and the three operations the class
    applies to them (truthiness, [>=] against an array length, the
    truncation done by [splice]) are exact, so finite values are kept as
    rationals; [0] stands for both zeros, which behave alike here. *)

Inductive number : Type :=
| NaN
| Infinity (negative : bool)
| Finite (q : Q).

Definition ofZ (z : Z) : number := Finite (inject_Z z).
Definition ofNat (n : nat) : number := ofZ (Z.of_nat n).

(** ToBoolean on a number: [NaN] and the zeros are falsy. *)
Definition truthy (n : number) : bool :=
  match n with
  | NaN => false
  | Infinity _ => true
  | Finite q => negb (Qeq_bool q 0)
  end.

(** The falsy numbers: [NaN] and the zeros. *)
Definition falsy (n : number) : Prop :=
  n = NaN \/ exists q, n = Finite q /\ (q == 0)%Q.

(** [x || d] where [x] may be [undefined] ([None]). *)
Definition orDefault (x : option number) (d : number) : number :=
  match x with
  | Some n => if truthy n then n else d
  | None => d
  end.

(** [len >= n] for an array length [len]. *)
Definition lengthReaches (len : nat) (n : number) : bool :=
  match n with
  | NaN => false
  | Infinity negative => negative
  | Finite q => Qle_bool q (inject_Z (Z.of_nat len))
  end.

(** The number of elements [splice(0, n)] removes from an array of
    length [len]: ToIntegerOrInfinity truncates towards zero, and the
    result is clamped between [0] and [len]. *)
Definition deleteCount (n : number) (len : nat) : nat :=
  match n with
  | NaN => 0
  | Infinity true => 0
  | Infinity false => len
  | Finite q => Nat.min (Z.to_nat (Z.quot (Qnum q) (Zpos (Qden q)))) len
  end.

(** [l.splice(0, n)]: the removed elements and what is left of [l]. *)
Definition splice {A : Type} (l : list A) (n : number) : list A * list A :=
  let k := deleteCount n (length l) in (firstn k l, skipn k l).

(** ** types.ts *)

Record Error : Type := { message : string }.

(** A value that a rejected promise carries: an [Error] instance or
    anything else (kept by its printed form). *)
Inductive thrown : Type :=
| ThrownError (e : Error)
| ThrownValue (v : string).

Record BatchingConfig : Type :=
  { cfg_batchSize : option number; frequencyMs : option number }.

Module Job.
Record t (T : Type) : Type := mk { id : string; payload : T }.
Arguments mk {T} _ _.
Arguments id {T} _.
Arguments payload {T} _.
End Job.

Module JobResult.
Record t (R : Type) : Type :=
  mk { id : string; result : option R; error : option Error }.
Arguments mk {R} _ _ _.
Arguments id {R} _.
Arguments result {R} _.
Arguments error {R} _.
End JobResult.

(** Names of the host's objects. *)
Abbreviation handle := nat (only parsing).  (* a promise made by [submitJob]; [resolve] is its resolver *)
Abbreviation timer := nat (only parsing).   (* a timeout made by [setTimeout] *)
Abbreviation call := nat (only parsing).    (* one invocation of [batchProcessor.process] *)

(** [InternalJob]: the submitted job spread into a new object, plus
    [resolve]. *)
Record InternalJob (T : Type) : Type :=
  { job : Job.t T; resolve : handle }.
Arguments job {T} _.
Arguments resolve {T} _.

Section Coordinator.

Variables T R : Type.

(** How a call of [batchProcessor.process] settles. *)
Inductive settlement : Type :=
| Fulfilled (results : list R)
| Rejected (reason : thrown).

(** The fields of the class. *)
Record MicroBatchProcessor : Type :=
  { pendingJobs : list (InternalJob T);
    isShuttingDown : bool;
    batchSize : number;
    batchFrequency : number;
    batchTimer : option timer }.

(** The host. [promises] lists the promises made by [submitJob], oldest
    first, with the job each was made for; promise [h] is entry [h].
    [resolved] lists the calls of [resolve] functions, oldest first (a
    promise keeps the value of the first call). [invoked] lists the calls
    of [batchProcessor.process] with their argument; call [c] is entry
    [c]. [suspended] holds the frames of [processBatch] waiting at the
    [await] for call [c], with their [jobsToProcess]. [awaiting] holds,
    for every frame of [shutdown] waiting at its [await], the call that
    the awaited [processBatch] is suspended on. *)
Record host : Type :=
  { timers : list (timer * number);
    nextTimer : timer;
    promises : list (Job.t T);
    resolved : list (handle * JobResult.t R);
    invoked : list (list T);
    suspended : list (call * list (InternalJob T));
    awaiting : list call;
    shutdownsCompleted : nat }.

Definition world : Type := (MicroBatchProcessor * host)%type.

Definition this (w : world) : MicroBatchProcessor := fst w.
Definition env (w : world) : host := snd w.

Definition newHost : host :=
  {| timers := []; nextTimer := 0; promises := []; resolved := [];
     invoked := []; suspended := []; awaiting := []; shutdownsCompleted := 0 |}.

(** [constructor(batchProcessor, config?)] *)
Definition constructor (config : option BatchingConfig) : MicroBatchProcessor :=
  {| pendingJobs := [];
     isShuttingDown := false;
     batchSize := orDefault (match config with Some c => cfg_batchSize c | None => None end) (ofZ 10);
     batchFrequency := orDefault (match config with Some c => frequencyMs c | None => None end) (ofZ 1000);
     batchTimer := None |}.

Definition create (config : option BatchingConfig) : world :=
  (constructor config, newHost).

(** [clearTimeout(t)] *)
Definition clearTimeout (t : timer) (h : host) : host :=
  {| timers := filter (fun e => negb (Nat.eqb (fst e) t)) (timers h);
     nextTimer := nextTimer h; promises := promises h; resolved := resolved h;
     invoked := invoked h; suspended := suspended h; awaiting := awaiting h;
     shutdownsCompleted := shutdownsCompleted h |}.

(** [setTimeout(callback, ms)]: the new timer and the host with it. *)
Definition setTimeout (ms : number) (h : host) : timer * host :=
  (nextTimer h,
   {| timers := timers h ++ [(nextTimer h, ms)];
      nextTimer := S (nextTimer h); promises := promises h; resolved := resolved h;
      invoked := invoked h; suspended := suspended h; awaiting := awaiting h;
      shutdownsCompleted := shutdownsCompleted h |}).

Definition setBatchTimer (b : option timer) (p : MicroBatchProcessor) : MicroBatchProcessor :=
  {| pendingJobs := pendingJobs p; isShuttingDown := isShuttingDown p;
     batchSize := batchSize p; batchFrequency := batchFrequency p;
     batchTimer := b |}.

Definition setPendingJobs (l : list (InternalJob T)) (p : MicroBatchProcessor) : MicroBatchProcessor :=
  {| pendingJobs := l; isShuttingDown := isShuttingDown p;
     batchSize := batchSize p; batchFrequency := batchFrequency p;
     batchTimer := batchTimer p |}.

Definition setIsShuttingDown (b : bool) (p : MicroBatchProcessor) : MicroBatchProcessor :=
  {| pendingJobs := pendingJobs p; isShuttingDown := b;
     batchSize := batchSize p; batchFrequency := batchFrequency p;
     batchTimer := batchTimer p |}.

(** [clearBatchTimer()] *)
Definition clearBatchTimer (w : world) : world :=
  match batchTimer (this w) with
  | Some t => (setBatchTimer None (this w), clearTimeout t (env w))
  | None => w
  end.

(** [processBatch()] up to its [await]: the timer is cleared, the batch
    is spliced off the queue, the batch processor is called with the
    payloads and the frame is suspended on that call, whose name is
    returned with the new world. A batch processor that throws instead
    of returning a promise takes the frame to its [catch] block in the
    same call ([processBatchCaught] below); that is this turn followed
    at once by [settle] with [Rejected]. *)
Definition processBatch (w : world) : world * call :=
  let w1 := clearBatchTimer w in
  let '(jobsToProcess, rest) := splice (pendingJobs (this w1)) (batchSize (this w1)) in
  let h := env w1 in
  let c := length (invoked h) in
  ((setPendingJobs rest (this w1),
    {| timers := timers h; nextTimer := nextTimer h; promises := promises h;
       resolved := resolved h;
       invoked := invoked h ++ [map (fun j => Job.payload (job j)) jobsToProcess];
       suspended := suspended h ++ [(c, jobsToProcess)];
       awaiting := awaiting h;
       shutdownsCompleted := shutdownsCompleted h |}), c).

(** The [TypeError] of reading [resolve] of [undefined]. *)
Definition undefinedResolve : Error :=
  {| message := "Cannot read properties of undefined (reading 'resolve')" |}.

(** [results.forEach((result, index) => ...)] from [index] on: the calls
    of [resolve] made, and the error thrown if [jobsToProcess[index]] is
    [undefined] (which stops the iteration). *)
Fixpoint forEachResult (jobsToProcess : list (InternalJob T)) (results : list R)
         (index : nat) : list (handle * JobResult.t R) * option Error :=
  match results with
  | [] => ([], None)
  | result :: more =>
      match nth_error jobsToProcess index with
      | None => ([], Some undefinedResolve)
      | Some j =>
          let '(calls, thrownError) := forEachResult jobsToProcess more (S index) in
          ((resolve j, JobResult.mk (Job.id (job j)) (Some result) None) :: calls,
           thrownError)
      end
  end.

(** [error instanceof Error ? error : new Error('Unknown error')] *)
Definition asError (e : thrown) : Error :=
  match e with
  | ThrownError err => err
  | ThrownValue _ => {| message := "Unknown error" |}
  end.

(** The [catch] block: every job of the batch is resolved with the error. *)
Definition resolveWithError (jobsToProcess : list (InternalJob T)) (e : thrown)
  : list (handle * JobResult.t R) :=
  map (fun j => (resolve j, JobResult.mk (Job.id (job j)) None (Some (asError e))))
      jobsToProcess.

(** The rest of [processBatch()] after its [await]: the calls of
    [resolve] it makes, in order. *)
Definition processBatchResume (jobsToProcess : list (InternalJob T)) (o : settlement)
  : list (handle * JobResult.t R) :=
  match o with
  | Fulfilled results =>
      match forEachResult jobsToProcess results 0 with
      | (calls, None) => calls
      | (calls, Some e) => calls ++ resolveWithError jobsToProcess (ThrownError e)
      end
  | Rejected e => resolveWithError jobsToProcess e
  end.

(** What a call returns: a value, or an exception thrown to the caller. *)
Inductive completion (A : Type) : Type :=
| Threw (e : Error)
| Returned (a : A).
Arguments Threw {A} _.
Arguments Returned {A} _.

Definition shutdownMessage : string :=
  "Cannot submit job - the system is shutting down.".

(** The executor of the promise of [submitJob], up to the size test. *)
Definition pushJob (j : Job.t T) (w : world) : handle * world :=
  let h := env w in
  let p := length (promises h) in
  (p,
   (setPendingJobs (pendingJobs (this w) ++ [{| job := j; resolve := p |}]) (this w),
    {| timers := timers h; nextTimer := nextTimer h;
       promises := promises h ++ [j];
       resolved := resolved h; invoked := invoked h; suspended := suspended h;
       awaiting := awaiting h; shutdownsCompleted := shutdownsCompleted h |})).

(** The timer branch of [submitJob]. *)
Definition armBatchTimer (w : world) : world :=
  match batchTimer (this w) with
  | Some _ => w
  | None =>
      let '(t, h) := setTimeout (batchFrequency (this w)) (env w) in
      (setBatchTimer (Some t) (this w), h)
  end.

(** [submitJob(job)] *)
Definition submitJob (j : Job.t T) (w : world) : completion (handle * world) :=
  if isShuttingDown (this w) then Threw {| message := shutdownMessage |}
  else
    let '(p, w1) := pushJob j w in
    if lengthReaches (length (pendingJobs (this w1))) (batchSize (this w1))
    then Returned (p, fst (processBatch w1))
    else Returned (p, armBatchTimer w1).

Definition completeShutdowns (n : nat) (h : host) : host :=
  {| timers := timers h; nextTimer := nextTimer h; promises := promises h;
     resolved := resolved h; invoked := invoked h; suspended := suspended h;
     awaiting := awaiting h; shutdownsCompleted := n + shutdownsCompleted h |}.

Definition awaitCall (c : call) (h : host) : host :=
  {| timers := timers h; nextTimer := nextTimer h; promises := promises h;
     resolved := resolved h; invoked := invoked h; suspended := suspended h;
     awaiting := awaiting h ++ [c]; shutdownsCompleted := shutdownsCompleted h |}.

(** [shutdown()] up to its [await], or to its end when the queue is
    empty (its promise is then fulfilled at once). *)
Definition shutdown (w : world) : world :=
  let w1 := clearBatchTimer (setIsShuttingDown true (this w), env w) in
  if 0 <? length (pendingJobs (this w1))
  then let '(w2, c) := processBatch w1 in (this w2, awaitCall c (env w2))
  else (this w1, completeShutdowns 1 (env w1)).

(** A timeout of the host fires. *)
Definition fires (t : timer) (h : host) : option host :=
  if existsb (fun e => Nat.eqb (fst e) t) (timers h)
  then Some (clearTimeout t h)
  else None.

Fixpoint frameOf (c : call) (frames : list (call * list (InternalJob T)))
  : option (list (InternalJob T)) :=
  match frames with
  | [] => None
  | (c', jobs) :: more => if Nat.eqb c' c then Some jobs else frameOf c more
  end.

(** Call [c] settles: the frame of [processBatch] suspended on it runs
    to its end, and then so does every frame of [shutdown] that awaited
    that [processBatch]. *)
Definition settle (c : call) (o : settlement) (w : world) : option world :=
  match frameOf c (suspended (env w)) with
  | None => None
  | Some jobsToProcess =>
      let h := env w in
      Some (this w,
            {| timers := timers h; nextTimer := nextTimer h; promises := promises h;
               resolved := resolved h ++ processBatchResume jobsToProcess o;
               invoked := invoked h;
               suspended := filter (fun f => negb (Nat.eqb (fst f) c)) (suspended h);
               awaiting := filter (fun c' => negb (Nat.eqb c' c)) (awaiting h);
               shutdownsCompleted :=
                 length (filter (fun c' => Nat.eqb c' c) (awaiting h))
                 + shutdownsCompleted h |})
  end.

(** The turns of the event loop. *)
Inductive event : Type :=
| Submit (j : Job.t T)
| Shutdown
| Timeout (t : timer)
| Settle (c : call) (o : settlement).

(** One turn; [None] when the host cannot take it (the timer is not
    pending, the call is not in flight). A [submitJob] that throws
    leaves the world as it was. *)
Definition step (w : world) (ev : event) : option world :=
  match ev with
  | Submit j =>
      match submitJob j w with
      | Threw _ => Some w
      | Returned (_, w') => Some w'
      end
  | Shutdown => Some (shutdown w)
  | Timeout t =>
      match fires t (env w) with
      | Some h => Some (fst (processBatch (this w, h)))
      | None => None
      end
  | Settle c o => settle c o w
  end.

Fixpoint run (w : world) (evs : list event) : option world :=
  match evs with
  | [] => Some w
  | ev :: more =>
      match step w ev with
      | Some w' => run w' more
      | None => None
      end
  end.

(** The worlds a coordinator made with [config] can be in. *)
Definition reachable (config : option BatchingConfig) (w : world) : Prop :=
  exists evs, run (create config) evs = Some w.

(** The value promise [p] was resolved with: that of the first call of
    its [resolve]. *)
Definition settledValue (p : handle) (w : world) : option (JobResult.t R) :=
  option_map snd (find (fun e => Nat.eqb (fst e) p) (resolved (env w))).

(** The calls of [resolve] made for promise [p]. *)
Definition resolutionsOf (p : handle) (calls : list (handle * JobResult.t R))
  : list (JobResult.t R) :=
  map snd (filter (fun e => Nat.eqb (fst e) p) calls).

(** ** Bookkeeping used by the statements *)

Definition handlesOf (jobs : list (InternalJob T)) : list handle :=
  map (@resolve T) jobs.

(** The jobs of the suspended [processBatch] frames. *)
Definition flightJobs (w : world) : list (InternalJob T) :=
  flat_map snd (suspended (env w)).

(** The jobs the coordinator still holds: queued or in flight. *)
Definition ownedJobs (w : world) : list (InternalJob T) :=
  pendingJobs (this w) ++ flightJobs w.

(** How often promise [p] is queued, in flight, held at all, and how
    many calls of its [resolve] have been made. *)
Definition queued (p : handle) (w : world) : nat :=
  count_occ Nat.eq_dec (handlesOf (pendingJobs (this w))) p.

Definition inFlight (p : handle) (w : world) : nat :=
  count_occ Nat.eq_dec (handlesOf (flightJobs w)) p.

Definition owned (p : handle) (w : world) : nat :=
  count_occ Nat.eq_dec (handlesOf (ownedJobs w)) p.

Definition resolutions (p : handle) (w : world) : nat :=
  length (resolutionsOf p (resolved (env w))).

(** The timers of the host that have neither fired nor been cleared. *)
Definition outstandingTimers (w : world) : list timer :=
  map fst (timers (env w)).

(** What holds of every world whatever the batch processor returns. *)
Record sound (w : world) : Prop :=
  { sound_owned : forall p, owned p w <= 1;
    sound_fresh : forall p, length (promises (env w)) <= p ->
                            owned p w = 0 /\ resolutions p w = 0;
    sound_jobs : forall j, In j (ownedJobs w) ->
                           nth_error (promises (env w)) (resolve j) = Some (job j);
    sound_resolved : forall p r, In (p, r) (resolved (env w)) ->
                                 owned p w = 0 /\
                                 exists j, nth_error (promises (env w)) p = Some j /\
                                           JobResult.id r = Job.id j;
    sound_timer : outstandingTimers w =
                  match batchTimer (this w) with Some t => [t] | None => [] end;
    sound_armed : batchTimer (this w) <> None -> pendingJobs (this w) <> [];
    sound_calls : NoDup (map fst (suspended (env w))) /\
                  forall c, In c (map fst (suspended (env w))) ->
                            c < length (invoked (env w)) }.

(** The batch processor's contract at one turn: a call that is fulfilled
    brings as many results as it was given payloads. *)
Definition honours (w : world) (ev : event) : bool :=
  match ev with
  | Settle c (Fulfilled results) =>
      match frameOf c (suspended (env w)) with
      | Some jobs => Nat.eqb (length results) (length jobs)
      | None => true
      end
  | _ => true
  end.

Fixpoint honoured (w : world) (evs : list event) : bool :=
  match evs with
  | [] => true
  | ev :: more =>
      honours w ev &&
      match step w ev with
      | Some w' => honoured w' more
      | None => true
      end
  end.

(** Under the contract every promise made is held or resolved, once. *)
Definition accounted (w : world) : Prop :=
  forall p, p < length (promises (env w)) -> owned p w + resolutions p w = 1.

(** With a positive integer batch size [b] the queue stays below [b],
    is watched by the timer while it holds a job, and is empty once
    shutdown has begun. *)
Definition bounded (b : nat) (w : world) : Prop :=
  batchSize (this w) = ofNat b /\
  length (pendingJobs (this w)) < b /\
  (pendingJobs (this w) <> [] -> batchTimer (this w) <> None) /\
  (isShuttingDown (this w) = true -> pendingJobs (this w) = []).

(** Nothing is pending at the host: no timer, no call in flight. *)
Definition quiescent (w : world) : Prop :=
  timers (env w) = [] /\ suspended (env w) = [].

(** Turns that let what is pending at the host happen: the timers
    fire; the calls in flight are rejected. *)
Definition drainTimer (w : world) : list event :=
  map (fun e => Timeout (fst e)) (timers (env w)).

Definition rejectAll (reason : thrown) (frames : list (call * list (InternalJob T)))
  : list event :=
  map (fun f => Settle (fst f) (Rejected reason)) frames.

(** The batch that [processBatch] takes off the queue of [w], and what it
    leaves there. *)
Definition batchOf (w : world) : list (InternalJob T) :=
  fst (splice (pendingJobs (this w)) (batchSize (this w))).

Definition restOf (w : world) : list (InternalJob T) :=
  snd (splice (pendingJobs (this w)) (batchSize (this w))).

(** Position by position, job [i] with result [i]: the calls of
    [resolve] that pair a batch with a result sequence. *)
Definition paired (jobs : list (InternalJob T)) (results : list R)
  : list (handle * JobResult.t R) :=
  map (fun jr => (resolve (fst jr),
                  JobResult.mk (Job.id (job (fst jr))) (Some (snd jr)) None))
      (combine jobs results).

(** The timer fires, then every call in flight is rejected. *)
Definition drain (reason : thrown) (w : world) : list event :=
  match run w (drainTimer w) with
  | Some w1 => drainTimer w ++ rejectAll reason (suspended (env w1))
  | None => drainTimer w
  end.

End Coordinator.

Arguments Fulfilled {R} _.
Arguments Rejected {R} _.
Arguments Submit {T R} _.
Arguments Shutdown {T R}.
Arguments Timeout {T R} _.
Arguments Settle {T R} _ _.
Arguments newHost {T R}.
Arguments constructor {T} _.
Arguments create {T R} _.
Arguments resolveWithError {T R} _ _.
Arguments rejectAll {T R} _ _.
Arguments Threw {A} _.
Arguments Returned {A} _.

(** ** Example data: the jobs and configurations of the test suite *)

Definition sizeOnly (n : number) : option BatchingConfig :=
  Some {| cfg_batchSize := Some n; frequencyMs := None |}.

Definition config (size ms : Z) : option BatchingConfig :=
  Some {| cfg_batchSize := Some (ofZ size); frequencyMs := Some (ofZ ms) |}.

Definition job1 : Job.t Z := Job.mk "1" 1%Z.
Definition job2 : Job.t Z := Job.mk "2" 2%Z.
Definition job3 : Job.t Z := Job.mk "3" 3%Z.

Definition processingError : thrown :=
  ThrownError {| message := "Processing error" |}.

(** The world of the test suite's failure test before the call settles:
    batch size 2, two jobs submitted, their batch in flight as call 0. *)
Definition twoInFlight : world Z Z :=
  match run (create (config 2 1000)) [Submit job1; Submit job2] with
  | Some w => w
  | None => create None
  end.

(** A batch processor seen as a function of the payloads it is called
    with, and a run in which every call that settles settles as that
    function says. *)
Definition processor (T R : Type) : Type := list T -> settlement R.

Definition servedBy (T R : Type) (proc : processor T R) (w : world T R)
           (ev : event T R) : Prop :=
  match ev with
  | Settle c o =>
      forall payloads, nth_error (invoked (env w)) c = Some payloads ->
                       o = proc payloads
  | _ => True
  end.

Fixpoint served (T R : Type) (proc : processor T R) (w : world T R)
         (evs : list (event T R)) : Prop :=
  match evs with
  | [] => True
  | ev :: more =>
      servedBy proc w ev /\
      match step w ev with
      | Some w' => served proc w' more
      | None => True
      end
  end.

(** A processor that answers [jobs.map(g)]. *)
Definition pointwise (T R : Type) (g : T -> R) : processor T R :=
  fun payloads => Fulfilled (map g payloads).

(** A processor of that form on integers: every payload squared. *)
Definition squaring : processor Z Z :=
  pointwise (fun payload => (payload * payload)%Z).

(** The job a turn appends to the queue: the submitted one, if
    [submitJob] gets past the shutdown test. *)
Definition pushedBy (T R : Type) (w : world T R) (ev : event T R)
  : list (InternalJob T) :=
  match ev with
  | Submit j =>
      if isShuttingDown (this w) then []
      else [{| job := j; resolve := length (promises (env w)) |}]
  | _ => []
  end.

(** Whether a turn runs [processBatch]: [submitJob] when the queue has
    reached [batchSize], [shutdown] when the queue is not empty, the
    timer's callback always, the continuation of an earlier cycle
    never. *)
Definition dispatches (T R : Type) (w : world T R) (ev : event T R) : bool :=
  match ev with
  | Submit _ =>
      negb (isShuttingDown (this w))
      && lengthReaches (length (pendingJobs (this w) ++ pushedBy w ev))
                       (batchSize (this w))
  | Shutdown => 0 <? length (pendingJobs (this w))
  | Timeout _ => true
  | Settle _ _ => false
  end.

(** The turns that can start a dispatch cycle. *)
Definition triggers (T R : Type) (ev : event T R) : bool :=
  match ev with
  | Settle _ _ => false
  | _ => true
  end.

(** [processBatch()] when [batchProcessor.process] throws [e] instead
    of returning a promise: the call is made, and the [catch] block
    resolves every job of the batch before [processBatch] returns. *)
Definition processBatchCaught (T R : Type) (e : thrown) (w : world T R)
  : world T R :=
  let w1 := clearBatchTimer w in
  let '(jobsToProcess, rest) := splice (pendingJobs (this w1)) (batchSize (this w1)) in
  let h := env w1 in
  (setPendingJobs rest (this w1),
   {| timers := timers h; nextTimer := nextTimer h; promises := promises h;
      resolved := resolved h ++ resolveWithError jobsToProcess e;
      invoked := invoked h ++ [map (fun j => Job.payload (job j)) jobsToProcess];
      suspended := suspended h;
      awaiting := awaiting h;
      shutdownsCompleted := shutdownsCompleted h |}).

(** Batch size 2 and one job submitted: it is queued under the timer. *)
Definition oneQueued : world Z Z :=
  match run (create (config 2 1000)) [Submit job1] with
  | Some w => w
  | None => create None
  end.

(** * Properties *)

Unset Strict Implicit.

(** Case analysis of a world into its fields. *)
Ltac open_world w :=
  let q := fresh "q" in let sd := fresh "sd" in let bs := fresh "bs" in
  let bf := fresh "bf" in let bt := fresh "bt" in let tm := fresh "tm" in
  let nt := fresh "nt" in let pr := fresh "pr" in let rs := fresh "rs" in
  let iv := fresh "iv" in let sp := fresh "sp" in let aw := fresh "aw" in
  let sc := fresh "sc" in
  destruct w as [[q sd bs bf bt] [tm nt pr rs iv sp aw sc]].

Lemma some_eq (A : Type) (a b : A) : Some a = Some b -> a = b.
Proof. intros H. injection H as H. exact H. Qed.

(** ** Numbers *)

Lemma lengthReaches_ofNat (len b : nat) :
  lengthReaches len (ofNat b) = (b <=? len).
Proof.
  unfold lengthReaches, ofNat, ofZ, Qle_bool, inject_Z; simpl.
  rewrite !Z.mul_1_r.
  destruct (Nat.leb_spec b len) as [Hle | Hlt].
  - apply Z.leb_le. lia.
  - apply Z.leb_gt. lia.
Qed.

Lemma deleteCount_ofNat (b len : nat) :
  deleteCount (ofNat b) len = Nat.min b len.
Proof.
  unfold deleteCount, ofNat, ofZ, inject_Z; simpl.
  rewrite Z.quot_1_r, Nat2Z.id. reflexivity.
Qed.

Lemma deleteCount_le (n : number) (len : nat) : deleteCount n len <= len.
Proof.
  destruct n as [ | [ | ] | q ]; simpl; lia.
Qed.

(** ** Counting handles *)

Section Counting.

Variable T : Type.

Lemma handlesOf_app (l1 l2 : list (InternalJob T)) :
  handlesOf (l1 ++ l2) = handlesOf l1 ++ handlesOf l2.
Proof. apply map_app. Qed.

Lemma count_split (p : handle) (k : nat) (l : list (InternalJob T)) :
  count_occ Nat.eq_dec (handlesOf l) p =
  count_occ Nat.eq_dec (handlesOf (firstn k l)) p
  + count_occ Nat.eq_dec (handlesOf (skipn k l)) p.
Proof.
  rewrite <- count_occ_app, <- handlesOf_app, firstn_skipn. reflexivity.
Qed.

Lemma count_In (p : handle) (l : list (InternalJob T)) (j : InternalJob T) :
  In j l -> resolve j = p -> 1 <= count_occ Nat.eq_dec (handlesOf l) p.
Proof.
  intros Hin Hp.
  assert (In p (handlesOf l)) as H by (subst p; apply in_map; exact Hin).
  apply (count_occ_In Nat.eq_dec) in H. lia.
Qed.

End Counting.

(** ** What each operation does to the fields *)

Section Operations.

Variables T R : Type.

Implicit Types (w : world T R) (p : handle) (c : call) (t : timer).

Lemma filter_twice (A : Type) (f : A -> bool) (l : list A) :
  filter f (filter f l) = filter f l.
Proof.
  induction l as [ | a l IH ]; simpl; [ reflexivity | ].
  destruct (f a) eqn:E; simpl; [ rewrite E, IH | rewrite IH ]; reflexivity.
Qed.

Lemma clearBatchTimer_queue w :
  pendingJobs (this (clearBatchTimer w)) = pendingJobs (this w)
  /\ isShuttingDown (this (clearBatchTimer w)) = isShuttingDown (this w)
  /\ batchSize (this (clearBatchTimer w)) = batchSize (this w)
  /\ batchFrequency (this (clearBatchTimer w)) = batchFrequency (this w).
Proof.
  open_world w. unfold clearBatchTimer; simpl. destruct bt; simpl; auto.
Qed.

Lemma clearBatchTimer_host w :
  nextTimer (env (clearBatchTimer w)) = nextTimer (env w)
  /\ promises (env (clearBatchTimer w)) = promises (env w)
  /\ resolved (env (clearBatchTimer w)) = resolved (env w)
  /\ invoked (env (clearBatchTimer w)) = invoked (env w)
  /\ suspended (env (clearBatchTimer w)) = suspended (env w)
  /\ awaiting (env (clearBatchTimer w)) = awaiting (env w)
  /\ shutdownsCompleted (env (clearBatchTimer w)) = shutdownsCompleted (env w).
Proof.
  open_world w. unfold clearBatchTimer; simpl. destruct bt; simpl; auto 10.
Qed.

Lemma clearBatchTimer_timer w :
  batchTimer (this (clearBatchTimer w)) = None
  /\ timers (env (clearBatchTimer w)) =
     match batchTimer (this w) with
     | Some t => filter (fun e => negb (Nat.eqb (fst e) t)) (timers (env w))
     | None => timers (env w)
     end.
Proof.
  open_world w. unfold clearBatchTimer; simpl. destruct bt; simpl; auto.
Qed.

Lemma batch_rest w : batchOf w ++ restOf w = pendingJobs (this w).
Proof. unfold batchOf, restOf, splice; simpl. apply firstn_skipn. Qed.

Lemma processBatch_this w :
  pendingJobs (this (fst (processBatch w))) = restOf w
  /\ isShuttingDown (this (fst (processBatch w))) = isShuttingDown (this w)
  /\ batchSize (this (fst (processBatch w))) = batchSize (this w)
  /\ batchFrequency (this (fst (processBatch w))) = batchFrequency (this w)
  /\ batchTimer (this (fst (processBatch w))) = None.
Proof.
  open_world w. unfold processBatch, clearBatchTimer, restOf, splice; simpl.
  destruct bt; simpl; auto.
Qed.

Lemma processBatch_env w :
  timers (env (fst (processBatch w))) = timers (env (clearBatchTimer w))
  /\ nextTimer (env (fst (processBatch w))) = nextTimer (env w)
  /\ promises (env (fst (processBatch w))) = promises (env w)
  /\ resolved (env (fst (processBatch w))) = resolved (env w)
  /\ invoked (env (fst (processBatch w))) =
     invoked (env w) ++ [map (fun j => Job.payload (job j)) (batchOf w)]
  /\ suspended (env (fst (processBatch w))) =
     suspended (env w) ++ [(length (invoked (env w)), batchOf w)]
  /\ awaiting (env (fst (processBatch w))) = awaiting (env w)
  /\ shutdownsCompleted (env (fst (processBatch w))) = shutdownsCompleted (env w)
  /\ snd (processBatch w) = length (invoked (env w)).
Proof.
  open_world w. unfold processBatch, clearBatchTimer, batchOf, splice; simpl.
  destruct bt; simpl; auto 10.
Qed.

End Operations.

(** ** The invariant [sound] *)

Section Soundness.

Variables T R : Type.

Implicit Types (w : world T R) (p : handle) (c : call) (t : timer).

Lemma resolutions_count p w :
  resolutions p w = count_occ Nat.eq_dec (map fst (resolved (env w))) p.
Proof.
  unfold resolutions, resolutionsOf. rewrite length_map.
  induction (resolved (env w)) as [ | [p' r] l IH ]; simpl; [ reflexivity | ].
  destruct (Nat.eq_dec p' p) as [E | E].
  - subst p'. rewrite Nat.eqb_refl. simpl. rewrite IH. reflexivity.
  - apply Nat.eqb_neq in E. rewrite E. exact IH.
Qed.

Lemma owned_split p w : owned p w = queued p w + inFlight p w.
Proof.
  unfold owned, queued, inFlight, ownedJobs.
  rewrite handlesOf_app, count_occ_app. reflexivity.
Qed.

(** A world that holds the same jobs and the same host records as a
    sound one, and whose timer bookkeeping is right, is sound. *)
Lemma sound_transfer w w' :
  pendingJobs (this w') = pendingJobs (this w) ->
  suspended (env w') = suspended (env w) ->
  promises (env w') = promises (env w) ->
  resolved (env w') = resolved (env w) ->
  invoked (env w') = invoked (env w) ->
  outstandingTimers w' = match batchTimer (this w') with Some t => [t] | None => [] end ->
  (batchTimer (this w') <> None -> pendingJobs (this w') <> []) ->
  sound w -> sound w'.
Proof.
  intros Hq Hs Hp Hr Hi Ht Ha [S1 S2 S3 S4 S5 S6 S7].
  assert (forall p, owned p w' = owned p w) as Ho
      by (intro p; unfold owned, ownedJobs, flightJobs; rewrite Hq, Hs; reflexivity).
  assert (forall p, resolutions p w' = resolutions p w) as Hres
      by (intro p; unfold resolutions; rewrite Hr; reflexivity).
  assert (ownedJobs w' = ownedJobs w) as Hj
      by (unfold ownedJobs, flightJobs; rewrite Hq, Hs; reflexivity).
  constructor.
  - intro p. rewrite Ho. apply S1.
  - intros p Hp'. rewrite Ho, Hres. apply S2. rewrite <- Hp. exact Hp'.
  - intros j Hin. rewrite Hp. apply S3. rewrite <- Hj. exact Hin.
  - intros p r Hin. rewrite Ho, Hp. apply S4. rewrite <- Hr. exact Hin.
  - exact Ht.
  - exact Ha.
  - rewrite Hs, Hi. exact S7.
Qed.

Lemma sound_create (config : option BatchingConfig) : sound (@create T R config).
Proof.
  constructor; simpl.
  - intros p. unfold owned; simpl. lia.
  - intros p _. split; reflexivity.
  - intros j [].
  - intros p r [].
  - reflexivity.
  - intros Hn. congruence.
  - split; [ constructor | intros c [] ].
Qed.

Lemma sound_clearBatchTimer w : sound w -> sound (clearBatchTimer w).
Proof.
  intros S.
  destruct (clearBatchTimer_queue w) as (Hq & _).
  destruct (clearBatchTimer_host w) as (_ & Hp & Hr & Hi & Hs & _).
  destruct (clearBatchTimer_timer w) as (Hb & Ht).
  apply sound_transfer with (w := w); auto; try (rewrite Hb; congruence).
  rewrite Hb. unfold outstandingTimers. rewrite Ht.
  pose proof (sound_timer S) as St. unfold outstandingTimers in St.
  destruct (batchTimer (this w)) as [t | ]; [ | exact St ].
  destruct (timers (env w)) as [ | [t' ms] l ]; simpl in *; [ reflexivity | ].
  injection St as E El. subst t'. rewrite Nat.eqb_refl. simpl.
  destruct l; [ reflexivity | discriminate ].
Qed.

Lemma flightJobs_processBatch w :
  flightJobs (fst (processBatch w)) = flightJobs w ++ batchOf w.
Proof.
  unfold flightJobs.
  destruct (processBatch_env w) as (_ & _ & _ & _ & _ & Hs & _).
  rewrite Hs, flat_map_app. simpl. rewrite app_nil_r. reflexivity.
Qed.

Lemma owned_processBatch p w : owned p (fst (processBatch w)) = owned p w.
Proof.
  unfold owned, ownedJobs.
  destruct (processBatch_this w) as (Hq & _).
  rewrite Hq, flightJobs_processBatch, <- (batch_rest w).
  rewrite !handlesOf_app, !count_occ_app. lia.
Qed.

Lemma ownedJobs_processBatch w (j : InternalJob T) :
  In j (ownedJobs (fst (processBatch w))) <-> In j (ownedJobs w).
Proof.
  unfold ownedJobs.
  destruct (processBatch_this w) as (Hq & _).
  rewrite Hq, flightJobs_processBatch, <- (batch_rest w).
  rewrite !in_app_iff. tauto.
Qed.

Lemma sound_processBatch w : sound w -> sound (fst (processBatch w)).
Proof.
  intros S. pose proof (sound_clearBatchTimer S) as Sc.
  destruct S as [S1 S2 S3 S4 S5 S6 S7].
  destruct (processBatch_this w) as (Hq & _ & _ & _ & Hb).
  destruct (processBatch_env w) as (Ht & _ & Hp & Hr & Hi & Hs & _).
  destruct (clearBatchTimer_timer w) as (Hcb & _).
  assert (forall p, resolutions p (fst (processBatch w)) = resolutions p w) as Hres
      by (intro p; unfold resolutions; rewrite Hr; reflexivity).
  constructor.
  - intro p. rewrite owned_processBatch. apply S1.
  - intros p Hp'. rewrite owned_processBatch, Hres. apply S2. rewrite <- Hp. exact Hp'.
  - intros j Hin. rewrite Hp. apply S3. apply ownedJobs_processBatch. exact Hin.
  - intros p r Hin. rewrite owned_processBatch, Hp. apply S4. rewrite <- Hr. exact Hin.
  - rewrite Hb. unfold outstandingTimers. rewrite Ht.
    pose proof (sound_timer Sc) as St. rewrite Hcb in St. exact St.
  - rewrite Hb. congruence.
  - rewrite Hs, Hi, map_app, length_app. simpl. destruct S7 as [Hnd Hlt]. split.
    + apply NoDup_app; [ exact Hnd | constructor; [ intros [] | constructor ] | ].
      intros c Hin [E | []]. subst c. apply Hlt in Hin. lia.
    + intros c Hin. apply in_app_iff in Hin. destruct Hin as [Hin | [E | []]].
      * apply Hlt in Hin. lia.
      * subst c. lia.
Qed.

End Soundness.

(** ** The continuation of [processBatch] *)

Section Resume.

Variables T R : Type.

Implicit Types (jobs : list (InternalJob T)) (results : list R).

Lemma skipn_nth_error (A : Type) (l : list A) (i : nat) (x : A) :
  nth_error l i = Some x -> skipn i l = x :: skipn (S i) l.
Proof.
  revert i. induction l as [ | a l IH ]; intros [ | i ] H; simpl in *;
    try discriminate.
  - injection H as ->. reflexivity.
  - apply IH. exact H.
Qed.

Lemma forEachResult_paired jobs results (index : nat) :
  forEachResult jobs results index =
  (paired (skipn index jobs) results,
   if length (skipn index jobs) <? length results
   then Some undefinedResolve else None).
Proof.
  revert index. induction results as [ | r more IH ]; intro index; simpl.
  - unfold paired. rewrite combine_nil. reflexivity.
  - destruct (nth_error jobs index) as [ j | ] eqn:E.
    + rewrite IH, (skipn_nth_error E). simpl. reflexivity.
    + apply nth_error_None in E. rewrite (skipn_all2 _ E). reflexivity.
Qed.

(** What the continuation does when the call is fulfilled. *)
Lemma processBatchResume_fulfilled jobs results :
  processBatchResume jobs (Fulfilled results) =
  paired jobs results ++
  (if length jobs <? length results
   then resolveWithError (R := R) jobs (ThrownError undefinedResolve) else []).
Proof.
  unfold processBatchResume. rewrite forEachResult_paired. simpl.
  destruct (length jobs <? length results); [ | rewrite app_nil_r ]; reflexivity.
Qed.

Lemma paired_handles jobs results :
  map fst (paired jobs results) = handlesOf (firstn (length results) jobs).
Proof.
  unfold paired, handlesOf. rewrite map_map. simpl.
  revert results. induction jobs as [ | j jobs IH ]; intros [ | r results ]; simpl;
    try reflexivity.
  rewrite IH. reflexivity.
Qed.

Lemma resolveWithError_handles jobs (e : thrown) :
  map fst (resolveWithError (R := R) jobs e) = handlesOf jobs.
Proof.
  unfold resolveWithError, handlesOf. rewrite map_map. reflexivity.
Qed.

(** Every call of [resolve] made by the continuation is on a job of the
    batch and carries that job's [id]. *)
Lemma processBatchResume_targets jobs (o : settlement R) p (r : JobResult.t R) :
  In (p, r) (processBatchResume jobs o) ->
  exists j, In j jobs /\ resolve j = p /\ JobResult.id r = Job.id (job j).
Proof.
  assert (forall e, In (p, r) (resolveWithError jobs e) ->
                    exists j, In j jobs /\ resolve j = p /\
                              JobResult.id r = Job.id (job j)) as Herr.
  { intros e H. unfold resolveWithError in H. apply in_map_iff in H.
    destruct H as (j & E & Hj). injection E as <- <-. exists j. auto. }
  destruct o as [ results | e ]; [ | apply Herr ].
  rewrite processBatchResume_fulfilled. intros H. apply in_app_iff in H.
  destruct H as [ H | H ].
  - unfold paired in H. apply in_map_iff in H. destruct H as ([j x] & E & Hj).
    simpl in E. injection E as <- <-. apply in_combine_l in Hj. exists j. auto.
  - destruct (length jobs <? length results); [ apply (Herr _ H) | destruct H ].
Qed.

(** Under the contract the continuation calls [resolve] of every job of
    the batch, once, in order. *)
Lemma processBatchResume_honoured jobs (o : settlement R) :
  match o with
  | Fulfilled results => length results = length jobs
  | Rejected _ => True
  end ->
  map fst (processBatchResume jobs o) = handlesOf jobs.
Proof.
  destruct o as [ results | e ]; intros H.
  - rewrite processBatchResume_fulfilled, H, Nat.ltb_irrefl, app_nil_r.
    rewrite paired_handles, H, firstn_all. reflexivity.
  - apply resolveWithError_handles.
Qed.

End Resume.

(** ** Every turn keeps the world sound *)

Section Turns.

Variables T R : Type.

Implicit Types (w : world T R) (p : handle) (c : call) (t : timer).

Lemma pushJob_fields (j : Job.t T) w :
  fst (pushJob j w) = length (promises (env w))
  /\ pendingJobs (this (snd (pushJob j w))) =
     pendingJobs (this w) ++ [{| job := j; resolve := length (promises (env w)) |}]
  /\ promises (env (snd (pushJob j w))) = promises (env w) ++ [j]
  /\ suspended (env (snd (pushJob j w))) = suspended (env w)
  /\ resolved (env (snd (pushJob j w))) = resolved (env w)
  /\ invoked (env (snd (pushJob j w))) = invoked (env w)
  /\ timers (env (snd (pushJob j w))) = timers (env w)
  /\ batchTimer (this (snd (pushJob j w))) = batchTimer (this w)
  /\ batchSize (this (snd (pushJob j w))) = batchSize (this w)
  /\ isShuttingDown (this (snd (pushJob j w))) = isShuttingDown (this w).
Proof. open_world w. simpl. auto 12. Qed.

Lemma owned_pushJob (j : Job.t T) w p :
  owned p (snd (pushJob j w)) =
  owned p w + (if Nat.eq_dec (length (promises (env w))) p then 1 else 0).
Proof.
  destruct (pushJob_fields j w) as (_ & Hq & _ & Hs & _).
  unfold owned, ownedJobs, flightJobs. rewrite Hq, Hs.
  rewrite !handlesOf_app, !count_occ_app. simpl.
  destruct (Nat.eq_dec (length (promises (env w))) p); lia.
Qed.

Lemma sound_pushJob (j : Job.t T) w : sound w -> sound (snd (pushJob j w)).
Proof.
  intros [S1 S2 S3 S4 S5 S6 S7].
  destruct (pushJob_fields j w) as (_ & Hq & Hp & Hs & Hr & Hi & Ht & Hb & _).
  assert (forall p, resolutions p (snd (pushJob j w)) = resolutions p w) as Hres
      by (intro p; unfold resolutions; rewrite Hr; reflexivity).
  constructor.
  - intro p. rewrite owned_pushJob.
    destruct (Nat.eq_dec (length (promises (env w))) p) as [E | E].
    + subst p. destruct (S2 _ (le_n _)) as [H0 _]. rewrite H0. lia.
    + pose proof (S1 p). lia.
  - intros p Hlen. rewrite Hp, length_app in Hlen. simpl in Hlen.
    rewrite owned_pushJob, Hres.
    destruct (Nat.eq_dec (length (promises (env w))) p) as [E | E]; [ lia | ].
    destruct (S2 p) as [H0 H1]; [ lia | ]. rewrite H0, H1. auto.
  - intros j' Hin. unfold ownedJobs, flightJobs in Hin. rewrite Hq, Hs in Hin.
    rewrite Hp. rewrite !in_app_iff in Hin. simpl in Hin.
    destruct Hin as [[Hin | [E | []]] | Hin].
    + rewrite nth_error_app1; [ apply S3; unfold ownedJobs; apply in_app_iff; auto | ].
      apply nth_error_Some. rewrite S3; [ discriminate | ].
      unfold ownedJobs; apply in_app_iff; auto.
    + subst j'. simpl. rewrite nth_error_app2, Nat.sub_diag; [ reflexivity | lia ].
    + rewrite nth_error_app1; [ apply S3; unfold ownedJobs; apply in_app_iff; auto | ].
      apply nth_error_Some. rewrite S3; [ discriminate | ].
      unfold ownedJobs; apply in_app_iff; auto.
  - intros p r Hin. rewrite Hr in Hin. destruct (S4 p r Hin) as (H0 & j' & Hn & Hid).
    assert (p < length (promises (env w))) as Hlt
        by (apply nth_error_Some; rewrite Hn; discriminate).
    rewrite owned_pushJob, Hp, H0.
    destruct (Nat.eq_dec (length (promises (env w))) p) as [E | E]; [ lia | ].
    split; [ reflexivity | ]. exists j'. rewrite nth_error_app1; auto.
  - unfold outstandingTimers in *. rewrite Ht, Hb. exact S5.
  - intros _. rewrite Hq. destruct (pendingJobs (this w)); discriminate.
  - rewrite Hs, Hi. exact S7.
Qed.

Lemma armBatchTimer_fields w :
  pendingJobs (this (armBatchTimer w)) = pendingJobs (this w)
  /\ suspended (env (armBatchTimer w)) = suspended (env w)
  /\ promises (env (armBatchTimer w)) = promises (env w)
  /\ resolved (env (armBatchTimer w)) = resolved (env w)
  /\ invoked (env (armBatchTimer w)) = invoked (env w)
  /\ batchSize (this (armBatchTimer w)) = batchSize (this w)
  /\ isShuttingDown (this (armBatchTimer w)) = isShuttingDown (this w)
  /\ awaiting (env (armBatchTimer w)) = awaiting (env w)
  /\ shutdownsCompleted (env (armBatchTimer w)) = shutdownsCompleted (env w)
  /\ batchTimer (this (armBatchTimer w)) <> None.
Proof.
  open_world w. unfold armBatchTimer; simpl. destruct bt; simpl;
    repeat split; discriminate.
Qed.

Lemma sound_armBatchTimer w :
  pendingJobs (this w) <> [] -> sound w -> sound (armBatchTimer w).
Proof.
  intros Hne S.
  destruct (armBatchTimer_fields w) as (Hq & Hs & Hp & Hr & Hi & _).
  apply sound_transfer with (w := w); auto.
  - pose proof (sound_timer S) as St. revert St.
    open_world w. unfold armBatchTimer, outstandingTimers; simpl.
    destruct bt; simpl; [ auto | ]. intros St.
    rewrite map_app, St. reflexivity.
  - intros _. rewrite Hq. exact Hne.
Qed.

Lemma sound_submitJob (j : Job.t T) w p w' :
  sound w -> submitJob j w = Returned (p, w') -> sound w'.
Proof.
  intros S. unfold submitJob.
  destruct (isShuttingDown (this w)); [ discriminate | ].
  pose proof (sound_pushJob j S) as S1.
  destruct (pushJob j w) as [p1 w1] eqn:E. simpl in S1.
  destruct (lengthReaches _ _); intros H; injection H as <- <-.
  - apply sound_processBatch. exact S1.
  - apply sound_armBatchTimer; [ | exact S1 ].
    destruct (pushJob_fields j w) as (_ & Hq & _). rewrite E in Hq. simpl in Hq.
    rewrite Hq. destruct (pendingJobs (this w)); discriminate.
Qed.

Lemma sound_shutdown w : sound w -> sound (shutdown w).
Proof.
  intros S. unfold shutdown.
  assert (sound (setIsShuttingDown true (this w), env w)) as S0.
  { apply sound_transfer with (w := w); try reflexivity; [ | | exact S ].
    - apply (sound_timer S).
    - apply (sound_armed S). }
  apply sound_clearBatchTimer in S0.
  set (w1 := clearBatchTimer (setIsShuttingDown true (this w), env w)) in *.
  destruct (0 <? length (pendingJobs (this w1))).
  - pose proof (sound_processBatch S0) as S2.
    destruct (processBatch w1) as [w2 c]. simpl in S2.
    apply sound_transfer with (w := w2); try reflexivity; [ | | exact S2 ].
    + apply (sound_timer S2).
    + apply (sound_armed S2).
  - apply sound_transfer with (w := w1); try reflexivity; [ | | exact S0 ].
    + apply (sound_timer S0).
    + apply (sound_armed S0).
Qed.

(** A timer that fires is the coordinator's [batchTimer], so the turn
    is [processBatch] on the world as it is. *)
Lemma fires_batchTimer w t (h : host T R) :
  sound w -> fires t (env w) = Some h ->
  batchTimer (this w) = Some t /\ processBatch (this w, h) = processBatch w.
Proof.
  intros S. pose proof (sound_timer S) as St. revert St.
  open_world w. unfold fires, outstandingTimers; simpl.
  intros St. destruct (existsb (fun e => fst e =? t) tm) eqn:E; [ | discriminate ].
  intros H. injection H as <-.
  apply existsb_exists in E. destruct E as ([t' ms] & Hin & Ht).
  simpl in Ht. apply Nat.eqb_eq in Ht. subst t'.
  assert (In t (match bt with Some t0 => [t0] | None => [] end)) as Hbt
      by (rewrite <- St; apply (in_map fst) in Hin; exact Hin).
  destruct bt as [t0 | ]; [ | destruct Hbt ].
  destruct Hbt as [-> | []]. split; [ reflexivity | ].
  unfold processBatch, clearBatchTimer, clearTimeout; simpl.
  rewrite filter_twice. reflexivity.
Qed.

End Turns.

(** ** A call settles *)

Section Settling.

Variables T R : Type.

Implicit Types (w : world T R) (p : handle) (c : call) (t : timer).
Implicit Types (frames : list (call * list (InternalJob T))).

Lemma filter_absent frames c :
  ~ In c (map fst frames) ->
  filter (fun f => negb (fst f =? c)) frames = frames.
Proof.
  induction frames as [ | [c' js] more IH ]; simpl; intros H; [ reflexivity | ].
  destruct (Nat.eqb_spec c' c) as [E | E]; simpl.
  - exfalso. apply H. left. exact E.
  - rewrite IH; [ reflexivity | ]. intros Hin. apply H. right. exact Hin.
Qed.

(** The frame suspended on [c] is the only one, and settling removes it. *)
Lemma frameOf_split frames c (jobs : list (InternalJob T)) :
  NoDup (map fst frames) -> frameOf c frames = Some jobs ->
  exists pre post,
    frames = pre ++ (c, jobs) :: post
    /\ filter (fun f => negb (fst f =? c)) frames = pre ++ post.
Proof.
  induction frames as [ | [c' js] more IH ]; simpl; intros Hnd H; [ discriminate | ].
  apply NoDup_cons_iff in Hnd. destruct Hnd as [Hnot Hnd].
  destruct (Nat.eqb_spec c' c) as [E | E]; simpl.
  - injection H as <-. subst c'. exists [], more. split; [ reflexivity | ].
    simpl. apply filter_absent. exact Hnot.
  - destruct (IH Hnd H) as (pre & post & E1 & E2).
    exists ((c', js) :: pre), post. simpl. rewrite E2, E1 at 1. auto.
Qed.

Lemma settle_fields c (o : settlement R) w w' :
  settle c o w = Some w' ->
  exists jobs,
    frameOf c (suspended (env w)) = Some jobs
    /\ this w' = this w
    /\ timers (env w') = timers (env w)
    /\ promises (env w') = promises (env w)
    /\ invoked (env w') = invoked (env w)
    /\ resolved (env w') = resolved (env w) ++ processBatchResume jobs o
    /\ suspended (env w') =
       filter (fun f => negb (fst f =? c)) (suspended (env w))
    /\ awaiting (env w') = filter (fun c' => negb (c' =? c)) (awaiting (env w))
    /\ shutdownsCompleted (env w') =
       length (filter (fun c' => c' =? c) (awaiting (env w)))
       + shutdownsCompleted (env w).
Proof.
  unfold settle. destruct (frameOf c (suspended (env w))) as [ jobs | ];
    [ | discriminate ].
  intros H. injection H as <-. exists jobs. simpl. auto 10.
Qed.

(** What settling does to the jobs held. *)
Lemma settle_owned c (o : settlement R) w w' (jobs : list (InternalJob T)) :
  sound w -> settle c o w = Some w' ->
  frameOf c (suspended (env w)) = Some jobs ->
  (forall p, owned p w = owned p w' + count_occ Nat.eq_dec (handlesOf jobs) p)
  /\ (forall j, In j (ownedJobs w') -> In j (ownedJobs w))
  /\ (forall j, In j jobs -> In j (ownedJobs w))
  /\ (forall p, inFlight p w = inFlight p w' + count_occ Nat.eq_dec (handlesOf jobs) p)
  /\ (forall p, queued p w' = queued p w).
Proof.
  intros S H Hf.
  destruct (settle_fields H) as (jobs' & Hf' & Hthis & _ & _ & _ & _ & Hs & _).
  rewrite Hf in Hf'. injection Hf' as <-.
  destruct (frameOf_split (proj1 (sound_calls S)) Hf) as (pre & post & E1 & E2).
  rewrite E2 in Hs.
  assert (flightJobs w = flat_map snd pre ++ jobs ++ flat_map snd post) as Fw
      by (unfold flightJobs; rewrite E1, flat_map_app; reflexivity).
  assert (flightJobs w' = flat_map snd pre ++ flat_map snd post) as Fw'
      by (unfold flightJobs; rewrite Hs, flat_map_app; reflexivity).
  repeat split.
  - intro p. unfold owned, ownedJobs. rewrite Hthis, Fw, Fw'.
    rewrite !handlesOf_app, !count_occ_app. lia.
  - intro j. unfold ownedJobs. rewrite Hthis, Fw, Fw'. rewrite !in_app_iff. tauto.
  - intros j Hin. unfold ownedJobs. rewrite Fw. rewrite !in_app_iff. tauto.
  - intro p. unfold inFlight. rewrite Fw, Fw'.
    rewrite !handlesOf_app, !count_occ_app. lia.
  - intro p. unfold queued. rewrite Hthis. reflexivity.
Qed.

Lemma settle_resolutions c (o : settlement R) w w' (jobs : list (InternalJob T)) p :
  settle c o w = Some w' ->
  frameOf c (suspended (env w)) = Some jobs ->
  resolutions p w' =
  resolutions p w + count_occ Nat.eq_dec (map fst (processBatchResume jobs o)) p.
Proof.
  intros H Hf.
  destruct (settle_fields H) as (jobs' & Hf' & _ & _ & _ & _ & Hr & _).
  rewrite Hf in Hf'. injection Hf' as <-.
  rewrite !resolutions_count, Hr, map_app, count_occ_app. reflexivity.
Qed.

Lemma sound_settle c (o : settlement R) w w' :
  sound w -> settle c o w = Some w' -> sound w'.
Proof.
  intros S H.
  destruct (settle_fields H) as (jobs & Hf & Hthis & Ht & Hp & Hi & Hr & Hs & _).
  destruct (settle_owned S H Hf) as (Ho & Hin' & Hjobs & _).
  assert (forall p r, In (p, r) (processBatchResume jobs o) ->
            1 <= count_occ Nat.eq_dec (handlesOf jobs) p
            /\ exists j, nth_error (promises (env w)) p = Some j
                         /\ JobResult.id r = Job.id j) as Hnew.
  { intros p r Hin. apply processBatchResume_targets in Hin.
    destruct Hin as (j & Hj & Hp' & Hid). split.
    - apply count_In with (j := j); assumption.
    - exists (job j). rewrite <- Hp'. split; [ | exact Hid ].
      apply (sound_jobs S). apply Hjobs. exact Hj. }
  constructor.
  - intro p. pose proof (sound_owned S p). rewrite Ho in *. lia.
  - intros p Hlen. rewrite Hp in Hlen.
    destruct (sound_fresh S Hlen) as [H0 H1]. split.
    + rewrite Ho in H0. lia.
    + rewrite (settle_resolutions p H Hf), H1. simpl.
      destruct (count_occ Nat.eq_dec (map fst (processBatchResume jobs o)) p) eqn:E;
        [ reflexivity | exfalso ].
      assert (In p (map fst (processBatchResume jobs o))) as Hin
          by (apply (count_occ_In Nat.eq_dec); lia).
      apply in_map_iff in Hin. destruct Hin as ([p' r] & E' & Hin). simpl in E'.
      subst p'. destruct (Hnew _ _ Hin) as (_ & j & Hn & _).
      assert (p < length (promises (env w))) by (apply nth_error_Some; congruence).
      lia.
  - intros j Hin. rewrite Hp. apply (sound_jobs S). apply Hin'. exact Hin.
  - intros p r Hin. rewrite Hr in Hin. rewrite Hp. apply in_app_iff in Hin.
    destruct Hin as [Hin | Hin].
    + destruct (sound_resolved S _ _ Hin) as (H0 & Hex). split; [ | exact Hex ].
      rewrite Ho in H0. lia.
    + destruct (Hnew _ _ Hin) as (Hc & Hex). split; [ | exact Hex ].
      pose proof (sound_owned S p) as H1. rewrite Ho in H1. lia.
  - unfold outstandingTimers. rewrite Ht, Hthis. apply (sound_timer S).
  - rewrite Hthis. apply (sound_armed S).
  - destruct (sound_calls S) as [Hnd Hlt].
    destruct (frameOf_split Hnd Hf) as (pre & post & E1 & E2).
    rewrite Hs, E2, Hi. rewrite E1 in Hnd, Hlt. rewrite map_app in *. simpl in *.
    split.
    + apply NoDup_remove_1 in Hnd. exact Hnd.
    + intros c' Hc. apply Hlt. rewrite in_app_iff in *. simpl. tauto.
Qed.

Theorem sound_step w (ev : event T R) w' :
  sound w -> step w ev = Some w' -> sound w'.
Proof.
  intros S. destruct ev as [ j | | t | c o ]; cbn [step].
  - destruct (submitJob j w) as [ e | [p w1] ] eqn:E; intros H; injection H as <-.
    + exact S.
    + apply (sound_submitJob S E).
  - intros H. injection H as <-. apply sound_shutdown. exact S.
  - destruct (fires t (env w)) as [ h | ] eqn:E; [ | discriminate ].
    intros H. apply some_eq in H. subst w'.
    destruct (fires_batchTimer S E) as [_ ->]. apply sound_processBatch. exact S.
  - apply sound_settle. exact S.
Qed.

Theorem sound_run (evs : list (event T R)) w w' :
  sound w -> run w evs = Some w' -> sound w'.
Proof.
  revert w. induction evs as [ | ev more IH ]; simpl; intros w S H.
  - injection H as <-. exact S.
  - destruct (step w ev) as [ w1 | ] eqn:E; [ | discriminate ].
    apply (IH w1); [ apply (sound_step S E) | exact H ].
Qed.

Corollary sound_reachable (config : option BatchingConfig) w :
  reachable config w -> sound w.
Proof.
  intros [evs H]. apply (sound_run (sound_create T R config) H).
Qed.

End Settling.

(** ** What a turn does to the promises *)

Section Tally.

Variables T R : Type.

Implicit Types (w : world T R) (p : handle) (c : call) (t : timer).

Lemma owned_same w w' p :
  pendingJobs (this w') = pendingJobs (this w) ->
  suspended (env w') = suspended (env w) ->
  owned p w' = owned p w.
Proof.
  intros Hq Hs. unfold owned, ownedJobs, flightJobs. rewrite Hq, Hs. reflexivity.
Qed.

Lemma shutdown_fields w :
  promises (env (shutdown w)) = promises (env w)
  /\ resolved (env (shutdown w)) = resolved (env w)
  /\ (forall p, owned p (shutdown w) = owned p w)
  /\ batchSize (this (shutdown w)) = batchSize (this w)
  /\ isShuttingDown (this (shutdown w)) = true
  /\ batchTimer (this (shutdown w)) = None
  /\ pendingJobs (this (shutdown w)) =
     (if 0 <? length (pendingJobs (this w)) then restOf w else pendingJobs (this w)).
Proof.
  unfold shutdown.
  set (w0 := (setIsShuttingDown true (this w), env w)).
  destruct (clearBatchTimer_queue w0) as (Hq & Hsd & Hbs & _).
  destruct (clearBatchTimer_host w0) as (_ & Hp & Hr & _ & Hs & _).
  destruct (clearBatchTimer_timer w0) as (Hb & _).
  set (w1 := clearBatchTimer w0) in *.
  assert (pendingJobs (this w1) = pendingJobs (this w)) as Hq1 by (rewrite Hq; reflexivity).
  assert (batchSize (this w1) = batchSize (this w)) as Hbs1 by (rewrite Hbs; reflexivity).
  assert (forall p, owned p w1 = owned p w) as Ho1
      by (intro p; apply owned_same; [ exact Hq1 | rewrite Hs; reflexivity ]).
  rewrite Hq1.
  destruct (0 <? length (pendingJobs (this w))).
  - destruct (processBatch_this w1) as (Hq2 & Hsd2 & Hbs2 & _ & Hb2).
    destruct (processBatch_env w1) as (_ & _ & Hp2 & Hr2 & _).
    pose proof (fun p => owned_processBatch p w1) as Ho2.
    destruct (processBatch w1) as [w2 c]. simpl in *.
    rewrite Hp2, Hr2, Hp, Hr, Hbs2, Hbs1, Hsd2, Hsd, Hb2, Hq2.
    repeat split; try reflexivity.
    + intro p. rewrite <- Ho1, <- Ho2. apply owned_same; reflexivity.
    + unfold restOf. rewrite Hq1, Hbs1. reflexivity.
  - simpl. rewrite Hp, Hr, Hbs1, Hsd, Hb, Hq1.
    repeat split; try reflexivity.
    intro p. rewrite <- Ho1. apply owned_same; reflexivity.
Qed.

(** The promise made, the promises held and the calls of [resolve]
    across one turn: a job is accepted, or nothing moves, or a batch is
    handed from the frames to its resolvers. *)
Lemma step_tally w (ev : event T R) w' :
  sound w -> step w ev = Some w' ->
  (exists j, ev = Submit j
     /\ isShuttingDown (this w) = false
     /\ promises (env w') = promises (env w) ++ [j]
     /\ (forall p, owned p w' =
                   owned p w + (if Nat.eq_dec (length (promises (env w))) p then 1 else 0))
     /\ resolved (env w') = resolved (env w))
  \/ (promises (env w') = promises (env w)
      /\ (forall p, owned p w' = owned p w)
      /\ resolved (env w') = resolved (env w))
  \/ (exists c o jobs, ev = Settle c o
      /\ frameOf c (suspended (env w)) = Some jobs
      /\ promises (env w') = promises (env w)
      /\ (forall p, owned p w = owned p w' + count_occ Nat.eq_dec (handlesOf jobs) p)
      /\ resolved (env w') = resolved (env w) ++ processBatchResume jobs o
      /\ (forall j, In j jobs -> In j (ownedJobs w))).
Proof.
  intros S. destruct ev as [ j | | t | c o ]; cbn [step].
  - unfold submitJob. destruct (isShuttingDown (this w)) eqn:Esd.
    + intros H. apply some_eq in H. subst w'. right. left. auto.
    + destruct (pushJob_fields j w) as (_ & _ & Hp & _ & Hr & _).
      pose proof (owned_pushJob j w) as Ho.
      destruct (pushJob j w) as [p1 w1]. cbn [fst snd] in *.
      destruct (lengthReaches _ _); intros H; apply some_eq in H; subst w';
        left; exists j; (split; [ reflexivity | ]); (split; [ reflexivity | ]).
      * destruct (processBatch_env w1) as (_ & _ & Hp2 & Hr2 & _).
        rewrite Hp2, Hr2, Hp, Hr. repeat split.
        intro p. rewrite owned_processBatch. apply Ho.
      * destruct (armBatchTimer_fields w1) as (Hq3 & Hs3 & Hp3 & Hr3 & _).
        rewrite Hp3, Hr3, Hp, Hr. repeat split.
        intro p. rewrite <- Ho. apply owned_same; assumption.
  - intros H. apply some_eq in H. subst w'. right. left.
    destruct (shutdown_fields w) as (Hp & Hr & Ho & _). auto.
  - destruct (fires t (env w)) as [ h | ] eqn:E; [ | discriminate ].
    intros H. apply some_eq in H. subst w'.
    destruct (fires_batchTimer S E) as [_ ->]. right. left.
    destruct (processBatch_env w) as (_ & _ & Hp2 & Hr2 & _).
    rewrite Hp2, Hr2. repeat split. intro p. apply owned_processBatch.
  - intros H. right. right.
    destruct (settle_fields H) as (jobs & Hf & _ & _ & Hp & _ & Hr & _).
    destruct (settle_owned S H Hf) as (Ho & _ & Hjobs & _).
    exists c, o, jobs. auto 10.
Qed.

End Tally.

(** ** Under the contract every promise is held or resolved, once *)

Section Accounting.

Variables T R : Type.

Implicit Types (w : world T R) (p : handle) (c : call) (t : timer).

Lemma resolutions_app w w' p (calls : list (handle * JobResult.t R)) :
  resolved (env w') = resolved (env w) ++ calls ->
  resolutions p w' = resolutions p w + count_occ Nat.eq_dec (map fst calls) p.
Proof.
  intros Hr. rewrite !resolutions_count, Hr, map_app, count_occ_app. reflexivity.
Qed.

Lemma resolutions_same w w' p :
  resolved (env w') = resolved (env w) -> resolutions p w' = resolutions p w.
Proof. intros Hr. unfold resolutions. rewrite Hr. reflexivity. Qed.

Lemma honours_settle w c (o : settlement R) (jobs : list (InternalJob T)) :
  honours w (Settle c o) = true ->
  frameOf c (suspended (env w)) = Some jobs ->
  map fst (processBatchResume jobs o) = handlesOf jobs.
Proof.
  intros H Hf. apply processBatchResume_honoured.
  destruct o as [ results | e ]; [ | exact I ].
  simpl in H. rewrite Hf in H. apply Nat.eqb_eq. exact H.
Qed.

Lemma accounted_create (config : option BatchingConfig) :
  accounted (@create T R config).
Proof. intros p H. simpl in H. lia. Qed.

Lemma accounted_step w (ev : event T R) w' :
  sound w -> accounted w -> honours w ev = true -> step w ev = Some w' ->
  accounted w'.
Proof.
  intros S A Hh H p Hlt.
  destruct (step_tally S H)
    as [ (j & _ & _ & Hp & Ho & Hr)
       | [ (Hp & Ho & Hr) | (c & o & jobs & -> & Hf & Hp & Ho & Hr & _) ] ].
  - rewrite Hp, length_app in Hlt. simpl in Hlt.
    rewrite Ho, (resolutions_same p Hr).
    destruct (Nat.eq_dec (length (promises (env w))) p) as [E | E].
    + subst p. destruct (sound_fresh S (le_n _)) as [-> ->]. reflexivity.
    + rewrite Nat.add_0_r. apply A. lia.
  - rewrite Ho, (resolutions_same p Hr). apply A. rewrite <- Hp. exact Hlt.
  - rewrite (resolutions_app p Hr), (honours_settle Hh Hf).
    rewrite Hp in Hlt. pose proof (A p Hlt). pose proof (Ho p). lia.
Qed.

Lemma accounted_run (evs : list (event T R)) w w' :
  sound w -> accounted w -> honoured w evs = true -> run w evs = Some w' ->
  accounted w'.
Proof.
  revert w. induction evs as [ | ev more IH ]; simpl; intros w S A Hh H.
  - apply some_eq in H. subst w'. exact A.
  - destruct (step w ev) as [ w1 | ] eqn:E; [ | discriminate ].
    apply andb_prop in Hh. destruct Hh as [Hh1 Hh2].
    apply (IH w1); auto.
    + apply (sound_step S E).
    + apply (accounted_step S A Hh1 E).
Qed.

(** A promise the coordinator no longer holds is never resolved again. *)
Lemma released_step w (ev : event T R) w' p :
  sound w -> p < length (promises (env w)) -> owned p w = 0 ->
  step w ev = Some w' ->
  p < length (promises (env w')) /\ owned p w' = 0
  /\ resolutions p w' = resolutions p w.
Proof.
  intros S Hlt H0 H.
  destruct (step_tally S H)
    as [ (j & _ & _ & Hp & Ho & Hr)
       | [ (Hp & Ho & Hr) | (c & o & jobs & -> & Hf & Hp & Ho & Hr & Hjobs) ] ].
  - rewrite Hp, length_app, Ho, H0, (resolutions_same p Hr). simpl.
    destruct (Nat.eq_dec (length (promises (env w))) p); [ lia | ].
    repeat split; lia.
  - rewrite Hp, Ho, (resolutions_same p Hr). auto.
  - rewrite Hp, (resolutions_app p Hr). pose proof (Ho p) as Hop.
    repeat split; [ exact Hlt | lia | ].
    destruct (count_occ Nat.eq_dec (map fst (processBatchResume jobs o)) p) eqn:E;
      [ lia | exfalso ].
    assert (In p (map fst (processBatchResume jobs o))) as Hin
        by (apply (count_occ_In Nat.eq_dec); lia).
    apply in_map_iff in Hin. destruct Hin as ([p' r] & E' & Hin). simpl in E'.
    subst p'. apply processBatchResume_targets in Hin.
    destruct Hin as (j & Hj & Hjp & _).
    pose proof (count_In Hj Hjp). lia.
Qed.

Lemma released_run (evs : list (event T R)) w w' p :
  sound w -> p < length (promises (env w)) -> owned p w = 0 ->
  run w evs = Some w' ->
  owned p w' = 0 /\ resolutions p w' = resolutions p w.
Proof.
  revert w. induction evs as [ | ev more IH ]; simpl; intros w S Hlt H0 H.
  - apply some_eq in H. subst w'. auto.
  - destruct (step w ev) as [ w1 | ] eqn:E; [ | discriminate ].
    destruct (released_step S Hlt H0 E) as (Hlt1 & H1 & Hr1).
    destruct (IH w1 (sound_step S E) Hlt1 H1 H) as (H2 & Hr2).
    split; [ exact H2 | congruence ].
Qed.

End Accounting.

(** ** A positive integer batch size *)

Section Bounded.

Variables T R : Type.

Implicit Types (w : world T R) (p : handle) (c : call) (t : timer).

Lemma restOf_all w (b : nat) :
  batchSize (this w) = ofNat b -> length (pendingJobs (this w)) <= b ->
  restOf w = [] /\ batchOf w = pendingJobs (this w).
Proof.
  intros Hb Hlen. unfold restOf, batchOf, splice; simpl.
  rewrite Hb, deleteCount_ofNat, Nat.min_r by exact Hlen.
  rewrite skipn_all, firstn_all. auto.
Qed.

Lemma bounded_create (config : option BatchingConfig) (b : nat) :
  1 <= b -> batchSize (constructor (T := T) config) = ofNat b ->
  bounded b (@create T R config).
Proof.
  intros Hb E. unfold bounded. simpl. repeat split; auto; try lia; congruence.
Qed.

Lemma bounded_processBatch w (b : nat) :
  batchSize (this w) = ofNat b -> length (pendingJobs (this w)) <= b -> 1 <= b ->
  bounded b (fst (processBatch w)).
Proof.
  intros Hb Hlen H1.
  destruct (processBatch_this w) as (Hq & _ & Hbs & _).
  destruct (restOf_all Hb Hlen) as [Hrest _].
  unfold bounded. rewrite Hq, Hbs, Hrest. simpl.
  repeat split; auto; try lia; congruence.
Qed.

Lemma bounded_step w (ev : event T R) w' (b : nat) :
  1 <= b -> sound w -> bounded b w -> step w ev = Some w' -> bounded b w'.
Proof.
  intros H1 Sw (Hb & Hlen & Hwatch & Hdown).
  destruct ev as [ j | | t | c o ]; cbn [step].
  - unfold submitJob. destruct (isShuttingDown (this w)) eqn:Esd.
    + intros H. apply some_eq in H. subst w'. unfold bounded. auto.
    + destruct (pushJob_fields j w) as (_ & Hq & _ & _ & _ & _ & _ & _ & Hbs & Hsd).
      destruct (pushJob j w) as [p1 w1]. cbn [fst snd] in *.
      assert (length (pendingJobs (this w1)) = S (length (pendingJobs (this w)))) as Hl
          by (rewrite Hq, length_app; simpl; lia).
      rewrite Hbs, Hb, lengthReaches_ofNat, Hl.
      destruct (Nat.leb_spec b (S (length (pendingJobs (this w))))) as [Hle | Hgt];
        intros H; apply some_eq in H; subst w'.
      * apply bounded_processBatch; [ congruence | lia | exact H1 ].
      * destruct (armBatchTimer_fields w1) as (Hq3 & _ & _ & _ & _ & Hbs3 & Hsd3 & _ & _ & Hbt3).
        unfold bounded. rewrite Hq3, Hbs3, Hsd3, Hbs, Hsd, Esd, Hl.
        repeat split; auto; try lia; discriminate.
  - intros H. apply some_eq in H. subst w'.
    destruct (shutdown_fields w) as (_ & _ & _ & Hbs & _ & _ & Hq).
    destruct (restOf_all (w := w) Hb) as [Hrest _]; [ lia | ].
    assert (pendingJobs (this (shutdown w)) = []) as Hq'.
    { rewrite Hq. destruct (pendingJobs (this w)); [ reflexivity | exact Hrest ]. }
    unfold bounded. rewrite Hq', Hbs. simpl.
    repeat split; auto; try lia; congruence.
  - destruct (fires t (env w)) as [ h | ] eqn:E; [ | discriminate ].
    intros H. apply some_eq in H. subst w'.
    destruct (fires_batchTimer Sw E) as [_ ->].
    apply bounded_processBatch; [ exact Hb | lia | exact H1 ].
  - intros H. destruct (settle_fields H) as (jobs & _ & Hthis & _).
    unfold bounded. rewrite Hthis. auto.
Qed.

Lemma bounded_run (evs : list (event T R)) w w' (b : nat) :
  1 <= b -> sound w -> bounded b w -> run w evs = Some w' -> bounded b w'.
Proof.
  intros H1. revert w. induction evs as [ | ev more IH ]; simpl; intros w S B H.
  - apply some_eq in H. subst w'. exact B.
  - destruct (step w ev) as [ w1 | ] eqn:E; [ | discriminate ].
    apply (IH w1); [ apply (sound_step S E) | apply (bounded_step H1 S B E) | exact H ].
Qed.

End Bounded.

(** ** Letting the host finish *)

Section Draining.

Variables T R : Type.

Implicit Types (w : world T R) (p : handle) (c : call) (t : timer).

Lemma run_app (evs1 evs2 : list (event T R)) w w1 :
  run w evs1 = Some w1 -> run w (evs1 ++ evs2) = run w1 evs2.
Proof.
  revert w. induction evs1 as [ | ev more IH ]; simpl; intros w H.
  - apply some_eq in H. subst w1. reflexivity.
  - destruct (step w ev) as [ w' | ]; [ apply IH; exact H | discriminate ].
Qed.

Lemma honoured_app (evs1 evs2 : list (event T R)) w w1 :
  run w evs1 = Some w1 -> honoured w evs1 = true -> honoured w1 evs2 = true ->
  honoured w (evs1 ++ evs2) = true.
Proof.
  revert w. induction evs1 as [ | ev more IH ]; simpl; intros w H H1 H2.
  - apply some_eq in H. subst w1. exact H2.
  - destruct (step w ev) as [ w' | ]; [ | discriminate ].
    apply andb_prop in H1. destruct H1 as [Ha Hb]. rewrite Ha. simpl.
    apply IH; assumption.
Qed.

(** The timer, if one is pending, fires and takes the whole queue. *)
Lemma drainTimer_run w (b : nat) :
  1 <= b -> sound w -> bounded b w ->
  exists w1,
    run w (drainTimer w) = Some w1
    /\ honoured w (drainTimer w) = true
    /\ timers (env w1) = []
    /\ pendingJobs (this w1) = []
    /\ promises (env w1) = promises (env w).
Proof.
  intros H1 Sw B. pose proof (sound_timer Sw) as St.
  destruct B as (Hb & Hlen & Hwatch & _).
  unfold drainTimer, outstandingTimers in *.
  destruct (timers (env w)) as [ | [t ms] more ] eqn:Et; cbn [map fst] in *.
  - exists w. repeat split; auto.
    destruct (pendingJobs (this w)); [ reflexivity | ].
    destruct (batchTimer (this w)); [ discriminate | ].
    exfalso. apply Hwatch; [ discriminate | reflexivity ].
  - destruct (batchTimer (this w)) as [t0 | ] eqn:Eb; [ | discriminate ].
    injection St as -> Hmore. destruct more; [ | discriminate ]. cbn [map].
    assert (fires t0 (env w) = Some (clearTimeout t0 (env w))) as Hf
        by (unfold fires; rewrite Et; simpl; rewrite Nat.eqb_refl; reflexivity).
    assert (step w (Timeout t0) = Some (fst (processBatch w))) as Hstep.
    { cbn [step]. rewrite Hf. destruct (fires_batchTimer Sw Hf) as [_ ->].
      reflexivity. }
    exists (fst (processBatch w)). cbn [run honoured]. rewrite Hstep.
    pose proof (sound_processBatch Sw) as S1.
    destruct (processBatch_this w) as (Hq & _ & _ & _ & Hbt).
    destruct (processBatch_env w) as (_ & _ & Hp & _).
    destruct (restOf_all (w := w) Hb) as [Hrest _]; [ lia | ].
    repeat split; auto.
    + pose proof (sound_timer S1) as St1. rewrite Hbt in St1.
      unfold outstandingTimers in St1. apply map_eq_nil in St1. exact St1.
    + rewrite Hq. exact Hrest.
Qed.

(** Every call in flight can be rejected, one after the other. *)
Lemma rejectAll_run (reason : thrown) (frames : list (call * list (InternalJob T))) w :
  sound w -> suspended (env w) = frames ->
  exists w2,
    run w (rejectAll reason frames) = Some w2
    /\ honoured w (rejectAll reason frames) = true
    /\ suspended (env w2) = []
    /\ timers (env w2) = timers (env w)
    /\ this w2 = this w
    /\ promises (env w2) = promises (env w).
Proof.
  revert w. induction frames as [ | [c jobs] more IH ]; intros w Sw Hs.
  - exists w. simpl. auto 10.
  - assert (frameOf c (suspended (env w)) = Some jobs) as Hf
        by (rewrite Hs; simpl; rewrite Nat.eqb_refl; reflexivity).
    unfold rejectAll. cbn [map fst run honoured step honours].
    fold (rejectAll (T := T) (R := R) reason more).
    destruct (settle c (Rejected reason) w) as [ w1 | ] eqn:H1;
      [ | unfold settle in H1; rewrite Hf in H1; discriminate ].
    destruct (settle_fields H1) as (jobs' & _ & Hthis & Ht & Hp & _ & _ & Hs1 & _).
    assert (suspended (env w1) = more) as Hmore.
    { rewrite Hs1, Hs. simpl. rewrite Nat.eqb_refl. simpl.
      apply filter_absent. destruct (sound_calls Sw) as [Hnd _].
      rewrite Hs in Hnd. simpl in Hnd. apply NoDup_cons_iff in Hnd. tauto. }
    destruct (IH w1 (sound_settle Sw H1) Hmore) as (w2 & Hr & Hh & Hs2 & Ht2 & Hthis2 & Hp2).
    exists w2. rewrite Hr, Hh. repeat split; auto; congruence.
Qed.

Lemma drain_run (reason : thrown) w (b : nat) :
  1 <= b -> sound w -> bounded b w ->
  exists w2,
    run w (drain reason w) = Some w2
    /\ honoured w (drain reason w) = true
    /\ quiescent w2
    /\ pendingJobs (this w2) = []
    /\ promises (env w2) = promises (env w).
Proof.
  intros H1 Sw B.
  destruct (drainTimer_run H1 Sw B) as (w1 & Hr1 & Hh1 & Ht1 & Hq1 & Hp1).
  destruct (rejectAll_run reason (sound_run Sw Hr1) eq_refl)
    as (w2 & Hr2 & Hh2 & Hs2 & Ht2 & Hthis2 & Hp2).
  exists w2. unfold drain. rewrite Hr1, (run_app _ Hr1), Hr2.
  rewrite (honoured_app Hr1 Hh1 Hh2). unfold quiescent.
  repeat split; auto; congruence.
Qed.

(** Once nothing is pending at the host and the queue is empty, every
    promise accounted for has exactly one resolution. *)
Lemma quiescent_resolved w p :
  accounted w -> quiescent w -> pendingJobs (this w) = [] ->
  p < length (promises (env w)) -> resolutions p w = 1.
Proof.
  intros A [_ Hs] Hq Hlt. pose proof (A p Hlt) as H.
  unfold owned, ownedJobs, flightJobs in H. rewrite Hq, Hs in H. simpl in H.
  exact H.
Qed.

End Draining.

(** ** The value a promise is resolved with *)

Section Settled.

Variables T R : Type.

Implicit Types (w : world T R) (p : handle) (c : call) (t : timer).
Implicit Types (calls : list (handle * JobResult.t R)).

Lemma find_append (A : Type) (f : A -> bool) (l1 l2 : list A) :
  find f (l1 ++ l2) =
  match find f l1 with Some x => Some x | None => find f l2 end.
Proof.
  induction l1 as [ | a l1 IH ]; simpl; [ reflexivity | ].
  destruct (f a); [ reflexivity | exact IH ].
Qed.

Lemma find_absent calls p :
  (forall r, ~ In (p, r) calls) -> find (fun e => fst e =? p) calls = None.
Proof.
  induction calls as [ | [p' r'] l IH ]; simpl; intros H; [ reflexivity | ].
  destruct (Nat.eqb_spec p' p) as [E | E].
  - subst p'. exfalso. apply (H r'). left. reflexivity.
  - apply IH. intros r Hin. apply (H r). right. exact Hin.
Qed.

Lemma find_present calls p (v : JobResult.t R) :
  NoDup (map fst calls) -> In (p, v) calls ->
  find (fun e => fst e =? p) calls = Some (p, v).
Proof.
  induction calls as [ | [p' r'] l IH ]; simpl; intros Hnd Hin; [ destruct Hin | ].
  apply NoDup_cons_iff in Hnd. destruct Hnd as [Hnot Hnd].
  destruct Hin as [E | Hin].
  - injection E as -> ->. rewrite Nat.eqb_refl. reflexivity.
  - destruct (Nat.eqb_spec p' p) as [E | E]; [ | apply IH; assumption ].
    subst p'. exfalso. apply Hnot. apply (in_map fst) in Hin. exact Hin.
Qed.

(** The handles of a suspended batch are pairwise distinct. *)
Lemma batch_NoDup w c (jobs : list (InternalJob T)) :
  sound w -> frameOf c (suspended (env w)) = Some jobs -> NoDup (handlesOf jobs).
Proof.
  intros Sw Hf. apply (NoDup_count_occ Nat.eq_dec). intro p.
  destruct (frameOf_split (proj1 (sound_calls Sw)) Hf) as (pre & post & E1 & _).
  pose proof (sound_owned Sw p) as Ho. unfold owned, ownedJobs, flightJobs in Ho.
  rewrite E1, flat_map_app in Ho. simpl in Ho.
  rewrite !handlesOf_app, !count_occ_app in Ho. lia.
Qed.

(** A promise of the batch takes the value of the first call made on it
    when the batch settles. *)
Lemma settledValue_settle w w' c (o : settlement R) (jobs : list (InternalJob T))
      calls calls' (j : InternalJob T) (v : JobResult.t R) :
  sound w -> settle c o w = Some w' ->
  frameOf c (suspended (env w)) = Some jobs ->
  processBatchResume jobs o = calls ++ calls' ->
  NoDup (map fst calls) -> In j jobs -> In (resolve j, v) calls ->
  settledValue (resolve j) w' = Some v.
Proof.
  intros Sw H Hf Hc Hnd Hj Hin.
  destruct (settle_fields H) as (jobs' & Hf' & _ & _ & _ & _ & Hr & _).
  rewrite Hf in Hf'. apply some_eq in Hf'. subst jobs'.
  destruct (settle_owned Sw H Hf) as (Ho & _ & Hjobs & _).
  unfold settledValue. rewrite Hr, Hc, !find_append.
  rewrite find_absent.
  - rewrite (find_present Hnd Hin). reflexivity.
  - intros r Hold. destruct (sound_resolved Sw _ _ Hold) as [H0 _].
    pose proof (Ho (resolve j)) as Hop. pose proof (count_In Hj eq_refl) as H1.
    lia.
Qed.

End Settled.

(** * The claims *)

Lemma truthy_not_falsy (n : number) : truthy n = true <-> ~ falsy n.
Proof.
  unfold falsy. destruct n as [ | neg | q ]; simpl.
  - split; [ discriminate | intros H; exfalso; apply H; left; reflexivity ].
  - split; [ | reflexivity ]. intros _ [H | (q & H & _)]; discriminate.
  - rewrite negb_true_iff. split.
    + intros H [H' | (q' & E & Hq)]; [ discriminate | ].
      injection E as <-. apply Qeq_bool_iff in Hq. congruence.
    + intros H. destruct (Qeq_bool q 0) eqn:E; [ | reflexivity ].
      exfalso. apply H. right. exists q. split; [ reflexivity | ].
      apply Qeq_bool_iff. exact E.
Qed.

Lemma orDefault_falsy (x : option number) (d : number) :
  (x = None \/ exists n, x = Some n /\ falsy n) -> orDefault x d = d.
Proof.
  intros [-> | (n & -> & Hn)]; simpl; [ reflexivity | ].
  destruct (truthy n) eqn:E; [ | reflexivity ].
  exfalso. apply truthy_not_falsy in E. exact (E Hn).
Qed.

Lemma orDefault_truthy (n d : number) : ~ falsy n -> orDefault (Some n) d = n.
Proof.
  intros H. apply truthy_not_falsy in H. simpl. rewrite H. reflexivity.
Qed.

(** C9: at construction the configuration is defaulted by the falsy rule
    only. The coordinator uses 10 when the supplied [batchSize] is absent
    or falsy and 1000 milliseconds when the supplied [frequencyMs] is
    absent or falsy; any other supplied value, be it negative, fractional
    or infinite, is taken as it is: the constructor rejects nothing. *)
Theorem constructor_defaults_by_falsy_rule (T : Type) (cfg : option BatchingConfig) :
  let size := match cfg with Some c => cfg_batchSize c | None => None end in
  let ms := match cfg with Some c => frequencyMs c | None => None end in
  (size = None \/ (exists n, size = Some n /\ falsy n) ->
   batchSize (constructor (T := T) cfg) = ofZ 10)
  /\ (ms = None \/ (exists n, ms = Some n /\ falsy n) ->
      batchFrequency (constructor (T := T) cfg) = ofZ 1000)
  /\ (forall n, size = Some n -> ~ falsy n ->
                batchSize (constructor (T := T) cfg) = n)
  /\ (forall n, ms = Some n -> ~ falsy n ->
                batchFrequency (constructor (T := T) cfg) = n).
Proof.
  intros size ms. unfold constructor; simpl. fold size. fold ms.
  repeat split.
  - apply orDefault_falsy.
  - apply orDefault_falsy.
  - intros n -> Hn. apply orDefault_truthy. exact Hn.
  - intros n -> Hn. apply orDefault_truthy. exact Hn.
Qed.

Lemma constructor_defaults_by_falsy_rule_witness :
  batchSize (constructor (T := Z) (sizeOnly (ofZ (-3)))) = ofZ (-3)
  /\ batchFrequency (constructor (T := Z) (sizeOnly (ofZ (-3)))) = ofZ 1000
  /\ batchSize (constructor (T := Z) (sizeOnly (ofZ 0))) = ofZ 10.
Proof.
  destruct (constructor_defaults_by_falsy_rule Z (sizeOnly (ofZ (-3))))
    as (_ & H2 & H3 & _).
  destruct (constructor_defaults_by_falsy_rule Z (sizeOnly (ofZ 0)))
    as (H1 & _).
  split; [ | split ].
  - apply H3; [ reflexivity | ].
    intros [H | (q & E & Hq)]; [ discriminate | ].
    injection E as <-. vm_compute in Hq. discriminate.
  - apply H2. left. reflexivity.
  - apply H1. right. exists (ofZ 0). split; [ reflexivity | ].
    right. exists (inject_Z 0). split; reflexivity.
Defined.

(** C6: [submitJob] called while [isShuttingDown] is true throws the
    shutdown error at once; no promise is made and the world is left as
    it was, so the turn leaves no trace and nothing can ever be resolved
    for that submission. Called while the flag is false it makes a new
    promise for the job, appends the job to the back of the queue, runs
    the size or timer branch on that queue and returns the promise,
    which is still unresolved and whose job the coordinator holds. *)
Theorem submitJob_checks_shutdown_flag (T R : Type) (j : Job.t T) (w : world T R) :
  (isShuttingDown (this w) = true ->
   submitJob j w = Threw {| message := "Cannot submit job - the system is shutting down." |}
   /\ step w (Submit j) = Some w
   /\ forall evs, run w (Submit j :: evs) = run w evs)
  /\ (isShuttingDown (this w) = false ->
      let p := length (promises (env w)) in
      let w1 := snd (pushJob j w) in
      exists w',
        submitJob j w = Returned (p, w')
        /\ pendingJobs (this w1) = pendingJobs (this w) ++ [{| job := j; resolve := p |}]
        /\ w' = (if lengthReaches (length (pendingJobs (this w1))) (batchSize (this w))
                 then fst (processBatch w1) else armBatchTimer w1)
        /\ nth_error (promises (env w')) p = Some j
        /\ In {| job := j; resolve := p |} (ownedJobs w')
        /\ resolved (env w') = resolved (env w)).
Proof.
  split; intros Hsd.
  - assert (submitJob j w = Threw {| message := shutdownMessage |}) as E
        by (unfold submitJob; rewrite Hsd; reflexivity).
    split; [ exact E | ].
    assert (step w (Submit j) = Some w) as Es by (cbn [step]; rewrite E; reflexivity).
    split; [ exact Es | ]. intros evs. cbn [run]. rewrite Es. reflexivity.
  - intros p w1.
    destruct (pushJob_fields j w) as (Hp1 & Hq & Hp & _ & Hr & _ & _ & _ & Hbs & _).
    fold w1 in Hq, Hp, Hr, Hbs. fold p in Hp1, Hq.
    assert (nth_error (promises (env w1)) p = Some j) as Hn
        by (rewrite Hp, nth_error_app2, Nat.sub_diag; [ reflexivity | apply le_n ]).
    assert (In {| job := j; resolve := p |} (ownedJobs w1)) as Hin
        by (unfold ownedJobs; rewrite Hq, !in_app_iff; simpl; auto).
    unfold submitJob. rewrite Hsd.
    destruct (pushJob j w) as [p' w1'] eqn:E. simpl in Hp1. subst p'.
    change w1' with w1. rewrite Hbs.
    destruct (lengthReaches _ _); eexists; (split; [ reflexivity | ]);
      (split; [ exact Hq | ]); (split; [ reflexivity | ]).
    + destruct (processBatch_env w1) as (_ & _ & Hp2 & Hr2 & _).
      rewrite Hp2, Hr2. repeat split; auto.
      apply ownedJobs_processBatch. exact Hin.
    + destruct (armBatchTimer_fields w1) as (Hq3 & Hs3 & Hp3 & Hr3 & _).
      rewrite Hp3, Hr3. repeat split; auto.
      unfold ownedJobs, flightJobs in *. rewrite Hq3, Hs3. exact Hin.
Qed.

Lemma submitJob_checks_shutdown_flag_witness :
  submitJob job3 (shutdown twoInFlight)
  = Threw {| message := "Cannot submit job - the system is shutting down." |}
  /\ exists w', submitJob job3 twoInFlight = Returned (2, w')
                /\ pendingJobs (this w') = [{| job := job3; resolve := 2 |}].
Proof.
  destruct (submitJob_checks_shutdown_flag job3 (shutdown twoInFlight)) as [H1 _].
  destruct (submitJob_checks_shutdown_flag job3 twoInFlight) as [_ H2].
  split.
  - apply H1. reflexivity.
  - destruct (H2 eq_refl) as (w' & E & _ & Ew & _).
    exists w'. split; [ exact E | ]. rewrite Ew. reflexivity.
Defined.

Lemma frameOf_removed (T : Type) (frames : list (call * list (InternalJob T))) (c : call) :
  frameOf c (filter (fun f => negb (fst f =? c)) frames) = None.
Proof.
  induction frames as [ | [c' js] more IH ]; simpl; [ reflexivity | ].
  destruct (Nat.eqb_spec c' c) as [E | E]; simpl; [ exact IH | ].
  apply Nat.eqb_neq in E. rewrite E. exact IH.
Qed.

(** C5: when the call of the batch processor for a batch is rejected,
    the continuation calls [resolve] of every job of the batch, in
    order, with that job's [id] and an error and no result; the error is
    the rejection value itself if it is an [Error] and a new
    [Error('Unknown error')] otherwise. Every promise of the batch takes
    that value. The queue, the list of processor calls and the timers
    are left as they were (nothing is queued again, nothing is retried)
    and the frame is gone. *)
Theorem rejected_batch_resolves_all_with_error
        (T R : Type) (cfg : option BatchingConfig) (w w' : world T R)
        (c : call) (e : thrown) (jobs : list (InternalJob T)) :
  reachable cfg w ->
  settle c (Rejected e) w = Some w' ->
  frameOf c (suspended (env w)) = Some jobs ->
  resolved (env w') =
    resolved (env w) ++
    map (fun j => (resolve j, JobResult.mk (Job.id (job j)) None (Some (asError e)))) jobs
  /\ (forall j, In j jobs ->
        settledValue (resolve j) w' =
        Some (JobResult.mk (Job.id (job j)) None (Some (asError e))))
  /\ (forall err, e = ThrownError err -> asError e = err)
  /\ (forall v, e = ThrownValue v -> asError e = {| message := "Unknown error" |})
  /\ pendingJobs (this w') = pendingJobs (this w)
  /\ invoked (env w') = invoked (env w)
  /\ timers (env w') = timers (env w)
  /\ frameOf c (suspended (env w')) = None.
Proof.
  intros Hreach H Hf. pose proof (sound_reachable Hreach) as Sw.
  destruct (settle_fields H) as (jobs' & Hf' & Hthis & Ht & _ & Hi & Hr & Hs & _).
  rewrite Hf in Hf'. apply some_eq in Hf'. subst jobs'.
  split; [ exact Hr | ]. split.
  - intros j Hj.
    apply settledValue_settle
      with (w := w) (c := c) (o := Rejected e) (jobs := jobs)
           (calls := resolveWithError jobs e) (calls' := []); auto.
    + simpl. rewrite app_nil_r. reflexivity.
    + rewrite resolveWithError_handles. apply (batch_NoDup Sw Hf).
    + unfold resolveWithError.
      apply (in_map (fun j0 => (resolve j0,
               JobResult.mk (R := R) (Job.id (job j0)) None (Some (asError e))))).
      exact Hj.
  - split; [ intros err ->; reflexivity | ].
    split; [ intros v ->; reflexivity | ].
    rewrite Hthis, Hi, Ht, Hs. repeat split. apply frameOf_removed.
Qed.

Lemma rejected_batch_resolves_all_with_error_witness :
  exists w',
    settle 0 (Rejected processingError) twoInFlight = Some w'
    /\ settledValue 1 w' =
       Some (JobResult.mk "2" None (Some {| message := "Processing error" |}))
    /\ pendingJobs (this w') = [].
Proof.
  destruct (settle 0 (Rejected processingError) twoInFlight) as [ w' | ] eqn:E;
    [ | discriminate ].
  exists w'. split; [ reflexivity | ].
  assert (reachable (config 2 1000) twoInFlight) as Hreach
      by (exists [Submit job1; Submit job2]; reflexivity).
  destruct (rejected_batch_resolves_all_with_error
              (jobs := [ {| job := job1; resolve := 0 |};
                         {| job := job2; resolve := 1 |} ]) Hreach E eq_refl)
    as (_ & Hv & _ & _ & Hq & _).
  split.
  - apply (Hv {| job := job2; resolve := 1 |}). simpl. auto.
  - rewrite Hq. reflexivity.
Defined.

Lemma paired_nth (T R : Type) (jobs : list (InternalJob T)) (results : list R)
      (i : nat) (j : InternalJob T) (r : R) :
  nth_error jobs i = Some j -> nth_error results i = Some r ->
  nth_error (paired jobs results) i =
  Some (resolve j, JobResult.mk (Job.id (job j)) (Some r) None).
Proof.
  revert results i.
  induction jobs as [ | j0 jobs IH ]; intros [ | r0 results ] [ | i ]; simpl;
    try discriminate.
  - intros Hj Hr. injection Hj as ->. injection Hr as ->. reflexivity.
  - intros Hj Hr. apply (IH _ _ Hj Hr).
Qed.

Lemma paired_NoDup (T R : Type) (jobs : list (InternalJob T)) (results : list R) :
  NoDup (handlesOf jobs) -> NoDup (map fst (paired jobs results)).
Proof.
  intros H. rewrite paired_handles.
  rewrite <- (firstn_skipn (length results) jobs), handlesOf_app in H.
  apply NoDup_app_remove_r in H. exact H.
Qed.

(** C4: when the call of the batch processor for a batch is fulfilled,
    the job at position [i] of the batch is resolved with its own [id]
    and the value at position [i] of the results: that is the [i]-th
    call of [resolve] the continuation makes, and the value the job's
    promise takes. *)
Theorem fulfilled_batch_pairs_by_position
        (T R : Type) (cfg : option BatchingConfig) (w w' : world T R)
        (c : call) (results : list R) (jobs : list (InternalJob T))
        (i : nat) (j : InternalJob T) (r : R) :
  reachable cfg w ->
  settle c (Fulfilled results) w = Some w' ->
  frameOf c (suspended (env w)) = Some jobs ->
  nth_error jobs i = Some j ->
  nth_error results i = Some r ->
  (exists calls,
      resolved (env w') = resolved (env w) ++ calls
      /\ nth_error calls i =
         Some (resolve j, JobResult.mk (Job.id (job j)) (Some r) None))
  /\ settledValue (resolve j) w' =
     Some (JobResult.mk (Job.id (job j)) (Some r) None).
Proof.
  intros Hreach H Hf Hj Hr. pose proof (sound_reachable Hreach) as Sw.
  destruct (settle_fields H) as (jobs' & Hf' & _ & _ & _ & _ & Hres & _).
  rewrite Hf in Hf'. apply some_eq in Hf'. subst jobs'.
  pose proof (paired_nth Hj Hr) as Hn.
  split.
  - eexists. split; [ exact Hres | ].
    rewrite processBatchResume_fulfilled, nth_error_app1; [ exact Hn | ].
    apply nth_error_Some. rewrite Hn. discriminate.
  - apply settledValue_settle
      with (w := w) (c := c) (o := Fulfilled results) (jobs := jobs)
           (calls := paired jobs results)
           (calls' := if length jobs <? length results
                      then resolveWithError jobs (ThrownError undefinedResolve)
                      else []); auto.
    + apply processBatchResume_fulfilled.
    + apply paired_NoDup. apply (batch_NoDup Sw Hf).
    + apply (nth_error_In _ _ Hj).
    + apply (nth_error_In _ _ Hn).
Qed.

Lemma fulfilled_batch_pairs_by_position_witness :
  exists w',
    settle 0 (Fulfilled [1; 4]%Z) twoInFlight = Some w'
    /\ settledValue 1 w' = Some (JobResult.mk "2" (Some 4%Z) None).
Proof.
  destruct (settle 0 (Fulfilled [1; 4]%Z) twoInFlight) as [ w' | ] eqn:E;
    [ | discriminate ].
  exists w'. split; [ reflexivity | ].
  assert (reachable (config 2 1000) twoInFlight) as Hreach
      by (exists [Submit job1; Submit job2]; reflexivity).
  apply (fulfilled_batch_pairs_by_position
           (jobs := [ {| job := job1; resolve := 0 |};
                      {| job := job2; resolve := 1 |} ])
           (i := 1) (j := {| job := job2; resolve := 1 |}) (r := 4%Z)
           Hreach E eq_refl eq_refl eq_refl).
Defined.

Lemma held_unresolved (T R : Type) (w : world T R) (p : handle) :
  sound w -> 1 <= owned p w -> resolutions p w = 0.
Proof.
  intros Sw Ho. rewrite resolutions_count.
  destruct (count_occ Nat.eq_dec (map fst (resolved (env w))) p) eqn:E;
    [ reflexivity | exfalso ].
  assert (In p (map fst (resolved (env w)))) as Hin
      by (apply (count_occ_In Nat.eq_dec); lia).
  apply in_map_iff in Hin. destruct Hin as ([p' r] & E' & Hin). simpl in E'.
  subst p'. destruct (sound_resolved Sw _ _ Hin) as [H0 _]. lia.
Qed.

Lemma unresolved_pending (T R : Type) (w : world T R) (p : handle) :
  resolutions p w = 0 -> settledValue p w = None.
Proof.
  unfold resolutions, resolutionsOf, settledValue. rewrite length_map.
  induction (resolved (env w)) as [ | [p' r] l IH ]; simpl; [ reflexivity | ].
  destruct (p' =? p); simpl; [ discriminate | exact IH ].
Qed.

Lemma paired_firstn (T R : Type) (jobs : list (InternalJob T)) (results : list R) :
  paired jobs results = paired (firstn (length results) jobs) results.
Proof.
  unfold paired. f_equal. revert results.
  induction jobs as [ | j jobs IH ]; intros [ | r results ]; simpl; try reflexivity.
  rewrite <- IH. reflexivity.
Qed.

(** C10: when the call of the batch processor is fulfilled with fewer
    results than the batch has jobs, the continuation calls [resolve]
    for the jobs at the positions below the number of results and for
    no other; none of these calls carries an error. The other jobs of
    the batch are no longer held by the coordinator, and in no later
    world is any of their promises resolved. *)
Theorem short_results_leave_jobs_unresolved
        (T R : Type) (cfg : option BatchingConfig) (w w' : world T R)
        (c : call) (results : list R) (jobs : list (InternalJob T)) :
  reachable cfg w ->
  settle c (Fulfilled results) w = Some w' ->
  frameOf c (suspended (env w)) = Some jobs ->
  length results < length jobs ->
  let served := firstn (length results) jobs in
  resolved (env w') = resolved (env w) ++ paired served results
  /\ map fst (paired served results) = handlesOf served
  /\ (forall p r, In (p, r) (paired served results) -> JobResult.error r = None)
  /\ (forall j, In j (skipn (length results) jobs) ->
      forall evs w'', run w' evs = Some w'' ->
        resolutions (resolve j) w'' = 0
        /\ settledValue (resolve j) w'' = None
        /\ owned (resolve j) w'' = 0).
Proof.
  intros Hreach H Hf Hlen served. pose proof (sound_reachable Hreach) as Sw.
  destruct (settle_fields H) as (jobs' & Hf' & _ & _ & Hp & _ & Hres & _).
  rewrite Hf in Hf'. apply some_eq in Hf'. subst jobs'.
  rewrite processBatchResume_fulfilled in Hres.
  assert ((length jobs <? length results) = false) as Hlt by (apply Nat.ltb_ge; lia).
  rewrite Hlt, app_nil_r, paired_firstn in Hres. fold served in Hres.
  assert (map fst (paired served results) = handlesOf served) as Hh.
  { rewrite paired_handles. unfold served. rewrite firstn_firstn, Nat.min_id.
    reflexivity. }
  split; [ exact Hres | ]. split; [ exact Hh | ]. split.
  - intros p r Hin. unfold paired in Hin. apply in_map_iff in Hin.
    destruct Hin as (jr & E & _). injection E as _ <-. reflexivity.
  - intros j Hj evs w'' Hrun.
    destruct (settle_owned Sw H Hf) as (Ho & _ & Hjobs & _).
    pose proof (batch_NoDup Sw Hf) as Hnd.
    pose proof (proj1 (NoDup_count_occ Nat.eq_dec _) Hnd (resolve j)) as Hc.
    rewrite (count_split (resolve j) (length results) jobs) in Hc.
    fold served in Hc. pose proof (count_In Hj eq_refl) as Hs.
    assert (In j jobs) as Hj'
        by (rewrite <- (firstn_skipn (length results) jobs); apply in_or_app; auto).
    pose proof (count_In Hj' eq_refl) as Hall.
    pose proof (sound_owned Sw (resolve j)) as H1. pose proof (Ho (resolve j)) as H2.
    assert (resolutions (resolve j) w' = 0) as Hr0.
    { rewrite (resolutions_app (resolve j) Hres), Hh.
      rewrite (held_unresolved (p := resolve j) Sw); lia. }
    assert (resolve j < length (promises (env w'))) as Hlt'.
    { rewrite Hp. apply nth_error_Some.
      rewrite (sound_jobs Sw _ (Hjobs j Hj')). discriminate. }
    assert (owned (resolve j) w' = 0) as Ho' by lia.
    destruct (released_run (p := resolve j) (sound_settle Sw H) Hlt' Ho' Hrun)
      as (Ho'' & Hr'').
    rewrite Hr0 in Hr''. repeat split; auto.
    apply unresolved_pending. exact Hr''.
Qed.

Lemma short_results_leave_jobs_unresolved_witness :
  exists w',
    settle 0 (Fulfilled [1%Z]) twoInFlight = Some w'
    /\ map fst (resolved (env w')) = [0]
    /\ settledValue 1 w' = None.
Proof.
  destruct (settle 0 (Fulfilled [1%Z]) twoInFlight) as [ w' | ] eqn:E;
    [ | discriminate ].
  exists w'. split; [ reflexivity | ].
  assert (reachable (config 2 1000) twoInFlight) as Hreach
      by (exists [Submit job1; Submit job2]; reflexivity).
  destruct (short_results_leave_jobs_unresolved
              (jobs := [ {| job := job1; resolve := 0 |};
                         {| job := job2; resolve := 1 |} ])
              Hreach E eq_refl (le_n 2))
    as (Hres & _ & _ & Hdropped).
  split.
  - rewrite Hres. reflexivity.
  - apply (Hdropped {| job := job2; resolve := 1 |} (or_introl eq_refl) [] w' eq_refl).
Defined.

Lemma deleteCount_under (n : number) (len : nat) :
  truthy n = true -> lengthReaches len n = false -> deleteCount n len = len.
Proof.
  destruct n as [ | [ | ] | q ]; simpl; try discriminate; try reflexivity.
  intros _ H. unfold Qle_bool, inject_Z in H. simpl in H.
  apply Z.leb_gt in H. rewrite Z.mul_1_r in H.
  apply Nat.min_r.
  assert (Z.of_nat len <= Qnum q ÷ Z.pos (Qden q))%Z as Hq.
  { rewrite Z.quot_div_nonneg by lia. apply Z.div_le_lower_bound; lia. }
  lia.
Qed.

Lemma shutdown_dispatch (T R : Type) (w : world T R) :
  invoked (env (shutdown w)) =
    (if 0 <? length (pendingJobs (this w))
     then invoked (env w) ++ [map (fun j => Job.payload (job j)) (batchOf w)]
     else invoked (env w))
  /\ timers (env (shutdown w)) = timers (env (clearBatchTimer w)).
Proof.
  open_world w. unfold shutdown, processBatch, clearBatchTimer, batchOf, splice.
  simpl. destruct bt; destruct q; simpl; auto.
Qed.

(** What a turn does to the queue and to the list of processor calls:
    the submitted job, if accepted, goes to the back; then, if the turn
    dispatches, the first [k] entries leave the queue and their
    payloads are the argument of one new call. *)
Lemma step_exact (T R : Type) (w : world T R) (ev : event T R) (w' : world T R) :
  step w ev = Some w' ->
  pendingJobs (this w') =
    (if dispatches w ev
     then skipn (deleteCount (batchSize (this w))
                             (length (pendingJobs (this w) ++ pushedBy w ev)))
                (pendingJobs (this w) ++ pushedBy w ev)
     else pendingJobs (this w) ++ pushedBy w ev)
  /\ invoked (env w') =
     (if dispatches w ev
      then invoked (env w) ++
           [map (fun j => Job.payload (job j))
                (firstn (deleteCount (batchSize (this w))
                                     (length (pendingJobs (this w) ++ pushedBy w ev)))
                        (pendingJobs (this w) ++ pushedBy w ev))]
      else invoked (env w)).
Proof.
  destruct ev as [ j | | t | c o ]; cbn [step dispatches pushedBy].
  - unfold submitJob. destruct (isShuttingDown (this w)); cbn [negb andb].
    + intros H. apply some_eq in H. subst w'. rewrite app_nil_r. auto.
    + destruct (pushJob_fields j w) as (_ & Hq1 & _ & _ & _ & Hi1 & _ & _ & Hbs1 & _).
      destruct (pushJob j w) as [p1 w1]. cbn [fst snd] in *.
      rewrite Hq1, Hbs1.
      destruct (lengthReaches _ _); intros H; apply some_eq in H; subst w'.
      * destruct (processBatch_this w1) as (Hq2 & _).
        destruct (processBatch_env w1) as (_ & _ & _ & _ & Hi2 & _).
        rewrite Hq2, Hi2, Hi1. unfold restOf, batchOf, splice; simpl.
        rewrite Hq1, Hbs1. auto.
      * destruct (armBatchTimer_fields w1) as (Hq3 & _ & _ & _ & Hi3 & _).
        rewrite Hq3, Hi3, Hq1, Hi1. auto.
  - intros H. apply some_eq in H. subst w'. rewrite app_nil_r.
    destruct (shutdown_fields w) as (_ & _ & _ & _ & _ & _ & Hq).
    destruct (shutdown_dispatch w) as (Hi & _).
    rewrite Hq, Hi. destruct (0 <? length (pendingJobs (this w))); auto.
  - unfold fires. destruct (existsb _ _); [ | discriminate ].
    intros H. apply some_eq in H. subst w'. rewrite app_nil_r.
    destruct (processBatch_this (this w, clearTimeout t (env w))) as (Hq2 & _).
    destruct (processBatch_env (this w, clearTimeout t (env w)))
      as (_ & _ & _ & _ & Hi2 & _).
    rewrite Hq2, Hi2. auto.
  - intros H. destruct (settle_fields H) as (jobs & _ & Hthis & _ & _ & Hi & _).
    rewrite Hthis, Hi, app_nil_r. auto.
Qed.

(** C7: a dispatch cycle takes a prefix of the queue, in queue order:
    the first [k] entries, where [k] is [batchSize] cut to an integer
    and clamped to the queue, so [min b (length queue)] for a batch size
    that is the integer [b], and the whole queue when fewer than
    [batchSize] jobs are queued. The batch processor is called with
    exactly the payloads of those jobs, in that order, and the rest of
    the queue stays, in order. Across a turn the queue changes in two
    ways only: an accepted [submitJob] appends its job at the back,
    and, if the turn dispatches, the dispatched prefix is removed from
    the front; the list of processor calls grows by exactly that
    prefix's payloads, or not at all. *)
Theorem dispatch_takes_fifo_prefix (T R : Type) (w : world T R) :
  let q := pendingJobs (this w) in
  let k := deleteCount (batchSize (this w)) (length q) in
  let w' := fst (processBatch w) in
  batchOf w = firstn k q
  /\ pendingJobs (this w') = skipn k q
  /\ batchOf w ++ pendingJobs (this w') = q
  /\ invoked (env w') =
     invoked (env w) ++ [map (fun j => Job.payload (job j)) (batchOf w)]
  /\ suspended (env w') = suspended (env w) ++ [(length (invoked (env w)), batchOf w)]
  /\ k <= length q
  /\ (forall b, batchSize (this w) = ofNat b -> k = Nat.min b (length q))
  /\ (truthy (batchSize (this w)) = true ->
      lengthReaches (length q) (batchSize (this w)) = false -> batchOf w = q)
  /\ (forall ev w2, step w ev = Some w2 ->
      let q1 := q ++ pushedBy w ev in
      let k1 := deleteCount (batchSize (this w)) (length q1) in
      pendingJobs (this w2) = (if dispatches w ev then skipn k1 q1 else q1)
      /\ invoked (env w2) =
         (if dispatches w ev
          then invoked (env w) ++ [map (fun j => Job.payload (job j)) (firstn k1 q1)]
          else invoked (env w))).
Proof.
  intros q k w'.
  destruct (processBatch_this w) as (Hq & _).
  destruct (processBatch_env w) as (_ & _ & _ & _ & Hi & Hs & _).
  assert (batchOf w = firstn k q) as Hb by reflexivity.
  assert (restOf w = skipn k q) as Hr by reflexivity.
  split; [ exact Hb | ]. split; [ rewrite <- Hr; exact Hq | ].
  split; [ unfold w'; rewrite Hq; apply batch_rest | ].
  split; [ exact Hi | ]. split; [ exact Hs | ].
  split; [ apply deleteCount_le | ].
  split; [ intros b E; unfold k; rewrite E; apply deleteCount_ofNat | ].
  split.
  - intros Ht Hl. rewrite Hb. unfold k. rewrite (deleteCount_under Ht Hl).
    apply firstn_all.
  - intros ev w2 H. apply (step_exact H).
Qed.

Lemma dispatch_takes_fifo_prefix_witness :
  batchOf oneQueued = [{| job := job1; resolve := 0 |}]
  /\ exists w2,
       step oneQueued (Submit job2) = Some w2
       /\ pendingJobs (this w2) = []
       /\ invoked (env w2) = [[1%Z; 2%Z]].
Proof.
  destruct (dispatch_takes_fifo_prefix oneQueued)
    as (_ & _ & _ & _ & _ & _ & _ & Hall & Hstep).
  split.
  - rewrite Hall; reflexivity.
  - destruct (step oneQueued (Submit job2)) as [ w2 | ] eqn:E; [ | discriminate ].
    exists w2. split; [ reflexivity | ].
    destruct (Hstep (Submit job2) w2 E) as (Hq & Hi).
    rewrite Hq, Hi. split; reflexivity.
Defined.

Lemma clearBatchTimer_twice (T R : Type) (w : world T R) :
  clearBatchTimer (clearBatchTimer w) = clearBatchTimer w.
Proof.
  open_world w. unfold clearBatchTimer; simpl. destruct bt; reflexivity.
Qed.

(** C8: at most one timer of the host is outstanding, and it is the
    one [batchTimer] names. [submitJob] sets no timer while one is
    armed; [processBatch] works on the world [clearBatchTimer] leaves
    and ends with no timer outstanding; so does [shutdown]; and
    [clearBatchTimer] changes nothing when no timer is armed, so
    clearing twice is clearing once. *)
Theorem at_most_one_timer (T R : Type) (cfg : option BatchingConfig) (w : world T R) :
  reachable cfg w ->
  length (outstandingTimers w) <= 1
  /\ outstandingTimers w = match batchTimer (this w) with Some t => [t] | None => [] end
  /\ (forall j p w', submitJob j w = Returned (p, w') ->
        batchTimer (this w) <> None ->
        forall t, In t (outstandingTimers w') -> In t (outstandingTimers w))
  /\ processBatch w = processBatch (clearBatchTimer w)
  /\ outstandingTimers (clearBatchTimer w) = []
  /\ batchTimer (this (clearBatchTimer w)) = None
  /\ outstandingTimers (fst (processBatch w)) = []
  /\ batchTimer (this (fst (processBatch w))) = None
  /\ outstandingTimers (shutdown w) = []
  /\ batchTimer (this (shutdown w)) = None
  /\ clearBatchTimer (clearBatchTimer w) = clearBatchTimer w
  /\ (batchTimer (this w) = None -> clearBatchTimer w = w).
Proof.
  intros Hreach. pose proof (sound_reachable Hreach) as Sw.
  pose proof (sound_timer Sw) as St.
  pose proof (sound_timer (sound_clearBatchTimer Sw)) as Stc.
  pose proof (sound_timer (sound_processBatch Sw)) as Stp.
  pose proof (sound_timer (sound_shutdown Sw)) as Sts.
  destruct (clearBatchTimer_timer w) as (Hbc & _).
  destruct (processBatch_this w) as (_ & _ & _ & _ & Hbp).
  destruct (shutdown_fields w) as (_ & _ & _ & _ & _ & Hbs & _).
  rewrite Hbc in Stc. rewrite Hbp in Stp. rewrite Hbs in Sts.
  split; [ rewrite St; destruct (batchTimer (this w)); simpl; lia | ].
  split; [ exact St | ]. split.
  - intros j p w' H Harmed t Hin. unfold submitJob in H.
    destruct (isShuttingDown (this w)); [ discriminate | ].
    destruct (pushJob_fields j w) as (_ & _ & _ & _ & _ & _ & Ht1 & Hb1 & _).
    pose proof (sound_pushJob j Sw) as S1.
    destruct (pushJob j w) as [p1 w1]. cbn [fst snd] in *.
    destruct (lengthReaches _ _);
      [ assert (w' = fst (processBatch w1)) as Hw by congruence
      | assert (w' = armBatchTimer w1) as Hw by congruence ];
      subst w'; clear H.
    + pose proof (sound_timer (sound_processBatch S1)) as Stp1.
      destruct (processBatch_this w1) as (_ & _ & _ & _ & Hbp1).
      rewrite Hbp1 in Stp1. rewrite Stp1 in Hin. destruct Hin.
    + unfold armBatchTimer in Hin. rewrite Hb1 in Hin.
      destruct (batchTimer (this w)); [ | congruence ].
      unfold outstandingTimers in *. rewrite Ht1 in Hin. exact Hin.
  - split; [ unfold processBatch; rewrite clearBatchTimer_twice; reflexivity | ].
    split; [ exact Stc | ]. split; [ exact Hbc | ].
    split; [ exact Stp | ]. split; [ exact Hbp | ].
    split; [ exact Sts | ]. split; [ exact Hbs | ].
    split; [ apply clearBatchTimer_twice | ].
    intros Hn. unfold clearBatchTimer. rewrite Hn. reflexivity.
Qed.

Lemma at_most_one_timer_witness :
  exists w',
    step twoInFlight (Submit job3) = Some w'
    /\ outstandingTimers w' = [1]
    /\ (forall w'', submitJob job1 w' = Returned (3, w'') ->
        forall t, In t (outstandingTimers w'') -> In t [1])
    /\ clearBatchTimer twoInFlight = twoInFlight.
Proof.
  destruct (step twoInFlight (Submit job3)) as [ w' | ] eqn:E; [ | discriminate ].
  exists w'. split; [ reflexivity | ].
  assert (reachable (config 2 1000) w') as Hreach.
  { exists [Submit job1; Submit job2; Submit job3].
    apply some_eq in E. subst w'. reflexivity. }
  assert (reachable (config 2 1000) twoInFlight) as Hreach2
      by (exists [Submit job1; Submit job2]; reflexivity).
  destruct (at_most_one_timer Hreach) as (_ & Ht & Hsub & _).
  destruct (at_most_one_timer Hreach2) as (_ & _ & _ & _ & _ & _ & _ & _ & _ & _ & _ & Hid).
  assert (outstandingTimers w' = [1]) as Ht0
      by (apply some_eq in E; subst w'; reflexivity).
  split; [ exact Ht0 | ]. split.
  - intros w'' Hs t Hin. rewrite <- Ht0. apply (Hsub job1 3 w'' Hs); [ | exact Hin ].
    apply some_eq in E. subst w'. discriminate.
  - apply Hid. reflexivity.
Defined.

Lemma batchSize_step (T R : Type) (w : world T R) (ev : event T R) (w' : world T R) :
  step w ev = Some w' -> batchSize (this w') = batchSize (this w).
Proof.
  destruct ev as [ j | | t | c o ]; cbn [step].
  - unfold submitJob. destruct (isShuttingDown (this w)).
    + intros H. apply some_eq in H. subst w'. reflexivity.
    + destruct (pushJob_fields j w) as (_ & _ & _ & _ & _ & _ & _ & _ & Hbs & _).
      destruct (pushJob j w) as [p1 w1]. cbn [fst snd] in *.
      destruct (lengthReaches _ _); intros H; apply some_eq in H; subst w'.
      * destruct (processBatch_this w1) as (_ & _ & Hbs2 & _). congruence.
      * destruct (armBatchTimer_fields w1) as (_ & _ & _ & _ & _ & Hbs3 & _).
        congruence.
  - intros H. apply some_eq in H. subst w'.
    destruct (shutdown_fields w) as (_ & _ & _ & Hbs & _). exact Hbs.
  - destruct (fires t (env w)) as [ h | ]; [ | discriminate ].
    intros H. apply some_eq in H. subst w'.
    destruct (processBatch_this (this w, h)) as (_ & _ & Hbs & _). exact Hbs.
  - intros H. destruct (settle_fields H) as (jobs & _ & Hthis & _).
    rewrite Hthis. reflexivity.
Qed.

Lemma batchSize_run (T R : Type) (evs : list (event T R)) (w w' : world T R) :
  run w evs = Some w' -> batchSize (this w') = batchSize (this w).
Proof.
  revert w. induction evs as [ | ev more IH ]; simpl; intros w H.
  - apply some_eq in H. subst w'. reflexivity.
  - destruct (step w ev) as [ w1 | ] eqn:E; [ | discriminate ].
    rewrite (IH w1 H). apply (batchSize_step E).
Qed.

Lemma resolutionsOf_In (R : Type) (p : handle) (r : JobResult.t R)
      (calls : list (handle * JobResult.t R)) :
  In r (resolutionsOf p calls) -> In (p, r) calls.
Proof.
  unfold resolutionsOf. intros H. apply in_map_iff in H.
  destruct H as ([p' r'] & E & Hin). simpl in E. subst r'.
  apply filter_In in Hin. destruct Hin as [Hin Hp]. simpl in Hp.
  apply Nat.eqb_eq in Hp. subst p'. exact Hin.
Qed.

(** C3 as stated fails for a batch size that is not a positive
    integer. With batch size 2.5 the third submission dispatches jobs 1
    and 2 and leaves job 3 queued with no timer: once the call for jobs
    1 and 2 has settled nothing is pending at the host, and job 3 has
    no resolution. With batch size 0.5 no cycle ever takes a job, also
    not the one [shutdown] runs. *)
Lemma fractional_batchSize_strands_a_job :
  (exists w : world Z Z,
      run (create (sizeOnly (Finite (5 # 2))))
          [Submit job1; Submit job2; Submit job3; Settle 0 (Fulfilled [1; 4]%Z)]
      = Some w
      /\ honoured (create (sizeOnly (Finite (5 # 2))))
                  [Submit job1; Submit job2; Submit job3;
                   Settle 0 (Fulfilled [1; 4]%Z)] = true
      /\ quiescent w
      /\ nth_error (promises (env w)) 2 = Some job3
      /\ resolutions 2 w = 0
      /\ queued 2 w = 1)
  /\ (exists w : world Z Z,
        run (create (sizeOnly (Finite (1 # 2))))
            [Submit job1; Shutdown; Settle 0 (Fulfilled []); Settle 1 (Fulfilled [])]
        = Some w
        /\ honoured (create (sizeOnly (Finite (1 # 2))))
                    [Submit job1; Shutdown; Settle 0 (Fulfilled (@nil Z));
                     Settle 1 (Fulfilled [])] = true
        /\ quiescent w
        /\ shutdownsCompleted (env w) = 1
        /\ nth_error (promises (env w)) 0 = Some job1
        /\ resolutions 0 w = 0).
Proof.
  split; eexists; (split; [ vm_compute; reflexivity | ]);
    repeat split; vm_compute; reflexivity.
Qed.

(** C3, amended: let the batch processor honour its contract (a
    fulfilled call brings as many results as the batch has jobs;
    otherwise the call is rejected). Then for every promise [submitJob]
    has made, at any time and for every configuration: at most one call
    of its [resolve] has been made; every such call carries the [id] of
    the submitted job; and the job is in exactly one place: queued, in
    flight, or resolved. If moreover the batch size is a positive
    integer, the host can always finish what is pending (the timer
    fires, the calls in flight settle), and whenever nothing is pending
    at the host the promise has exactly one resolution. *)
Theorem accepted_job_resolved_exactly_once
        (T R : Type) (cfg : option BatchingConfig) (evs : list (event T R))
        (w : world T R) (p : handle) (j : Job.t T) :
  run (create cfg) evs = Some w ->
  honoured (create cfg) evs = true ->
  nth_error (promises (env w)) p = Some j ->
  resolutions p w <= 1
  /\ (forall r, In r (resolutionsOf p (resolved (env w))) ->
                JobResult.id r = Job.id j)
  /\ queued p w + inFlight p w + resolutions p w = 1
  /\ (forall b, 1 <= b -> batchSize (this w) = ofNat b ->
        (quiescent w -> resolutions p w = 1)
        /\ forall reason,
             exists w',
               run w (drain reason w) = Some w'
               /\ honoured w (drain reason w) = true
               /\ quiescent w'
               /\ promises (env w') = promises (env w)
               /\ resolutions p w' = 1).
Proof.
  intros Hrun Hh Hp.
  pose proof (sound_run (sound_create T R cfg) Hrun) as Sw.
  pose proof (accounted_run (sound_create T R cfg) (@accounted_create T R cfg) Hh Hrun) as A.
  assert (p < length (promises (env w))) as Hlt
      by (apply nth_error_Some; rewrite Hp; discriminate).
  pose proof (A p Hlt) as Hone. rewrite owned_split in Hone.
  split; [ lia | ]. split.
  - intros r Hin. apply resolutionsOf_In in Hin.
    destruct (sound_resolved Sw _ _ Hin) as (_ & j' & Hj' & Hid). congruence.
  - split; [ lia | ]. intros b Hb Hbs.
    assert (bounded b w) as B.
    { refine (bounded_run Hb (sound_create T R cfg) _ Hrun).
      apply bounded_create; [ exact Hb | ].
      rewrite <- Hbs. symmetry. apply (batchSize_run Hrun). }
    split.
    + intros Hq. apply quiescent_resolved; auto.
      destruct B as (_ & _ & Hwatch & _). destruct Hq as [Ht _].
      pose proof (sound_timer Sw) as St. unfold outstandingTimers in St.
      rewrite Ht in St. simpl in St.
      destruct (pendingJobs (this w)); [ reflexivity | ].
      destruct (batchTimer (this w)); [ discriminate | ].
      exfalso. apply Hwatch; [ discriminate | reflexivity ].
    + intros reason.
      destruct (drain_run reason Hb Sw B) as (w' & Hr' & Hh' & Hq' & Hqueue & Hp').
      exists w'. repeat split; auto; try apply Hq'.
      apply quiescent_resolved; auto.
      * apply (accounted_run Sw A Hh' Hr').
      * rewrite Hp'. exact Hlt.
Qed.

Lemma accepted_job_resolved_exactly_once_witness :
  exists w,
    run (create (config 2 1000))
        [Submit job1; Submit job2; Settle 0 (Fulfilled [1; 4]%Z)] = Some w
    /\ resolutions 1 w = 1
    /\ (forall r, In r (resolutionsOf 1 (resolved (env w))) -> JobResult.id r = "2").
Proof.
  destruct (run (create (config 2 1000))
                [Submit job1; Submit job2; Settle 0 (Fulfilled [1; 4]%Z)])
    as [ w | ] eqn:E; [ | discriminate ].
  exists w. split; [ reflexivity | ].
  assert (nth_error (promises (env w)) 1 = Some job2) as Hp
      by (apply some_eq in E; subst w; reflexivity).
  assert (batchSize (this w) = ofNat 2) as Hbs
      by (apply some_eq in E; subst w; reflexivity).
  assert (quiescent w) as Hq
      by (apply some_eq in E; subst w; split; reflexivity).
  destruct (accepted_job_resolved_exactly_once (p := 1) E eq_refl Hp)
    as (_ & Hid & _ & Hlive).
  split; [ | exact Hid ].
  destruct (Hlive 2 (le_S 1 1 (le_n 1)) Hbs) as [Hdone _]. apply Hdone. exact Hq.
Defined.

(** C1 fails on the code. [shutdown] awaits the one [processBatch] it
    starts and nothing else. First run (batch size 2): jobs 1 and 2 are
    dispatched as call 0, job 3 is queued, [shutdown] dispatches it as
    call 1 and completes when call 1 is fulfilled, while call 0 has not
    settled and the promises of jobs 1 and 2 are unresolved. Second run:
    [shutdown] finds the queue empty and completes at once while call 0
    is in flight. Third run (batch size 0.5, which the constructor
    keeps): every cycle splices nothing off the queue, and [shutdown]
    completes with both jobs still queued. *)
Theorem shutdown_completes_with_jobs_unresolved :
  (exists w,
      run (create (config 2 1000))
          [Submit job1; Submit job2; Submit job3; Shutdown;
           Settle 1 (Fulfilled [9%Z])] = Some w
      /\ shutdownsCompleted (env w) = 1
      /\ promises (env w) = [job1; job2; job3]
      /\ map fst (resolved (env w)) = [2]
      /\ settledValue 0 w = None /\ settledValue 1 w = None
      /\ map fst (suspended (env w)) = [0])
  /\ (exists w,
        run (create (R := Z) (config 2 1000))
            [Submit job1; Submit job2; Shutdown] = Some w
        /\ shutdownsCompleted (env w) = 1
        /\ promises (env w) = [job1; job2]
        /\ resolved (env w) = []
        /\ map fst (suspended (env w)) = [0])
  /\ (exists w,
        run (create (sizeOnly (Finite (1 # 2))))
            [Submit job1; Submit job2; Shutdown; Settle 2 (Fulfilled (@nil Z))] = Some w
        /\ shutdownsCompleted (env w) = 1
        /\ map (@resolve Z) (pendingJobs (this w)) = [0; 1]
        /\ invoked (env w) = [[]; []; []]
        /\ resolved (env w) = []).
Proof.
  split; [ | split ]; eexists; (split; [ vm_compute; reflexivity | ]);
    repeat split.
Qed.

(** * Further properties of the coordinator *)

(** ** The shape of a turn *)

Lemma shutdown_calls (T R : Type) (w : world T R) :
  suspended (env (shutdown w)) =
    (if 0 <? length (pendingJobs (this w))
     then suspended (env w) ++ [(length (invoked (env w)), batchOf w)]
     else suspended (env w))
  /\ awaiting (env (shutdown w)) =
     (if 0 <? length (pendingJobs (this w))
      then awaiting (env w) ++ [length (invoked (env w))]
      else awaiting (env w))
  /\ shutdownsCompleted (env (shutdown w)) =
     (if 0 <? length (pendingJobs (this w))
      then shutdownsCompleted (env w)
      else S (shutdownsCompleted (env w))).
Proof.
  open_world w. unfold shutdown, processBatch, clearBatchTimer, batchOf, splice.
  simpl. destruct bt; destruct q; simpl; auto.
Qed.

(** A turn appends at most the submitted job to the queue and then
    either dispatches nothing, or dispatches once, from a queue that
    holds a job: the first [k] entries go to the batch processor and to
    a new frame. *)
Lemma step_shape (T R : Type) (w : world T R) (ev : event T R) (w' : world T R) :
  sound w -> step w ev = Some w' ->
  exists pushed,
    promises (env w') = promises (env w) ++ map (@job T) pushed
    /\ (pushed = [] \/
        exists j, ev = Submit j /\ isShuttingDown (this w) = false
                  /\ pushed = [{| job := j; resolve := length (promises (env w)) |}])
    /\ ((pendingJobs (this w') = pendingJobs (this w) ++ pushed
         /\ invoked (env w') = invoked (env w)
         /\ (suspended (env w') = suspended (env w)
             \/ exists c o, ev = Settle c o /\ pushed = []
                  /\ suspended (env w') =
                     filter (fun f => negb (fst f =? c)) (suspended (env w))))
        \/ (pendingJobs (this w) ++ pushed <> []
            /\ pendingJobs (this w') =
               skipn (deleteCount (batchSize (this w))
                                  (length (pendingJobs (this w) ++ pushed)))
                     (pendingJobs (this w) ++ pushed)
            /\ invoked (env w') =
               invoked (env w) ++
               [map (fun j => Job.payload (job j))
                    (firstn (deleteCount (batchSize (this w))
                                         (length (pendingJobs (this w) ++ pushed)))
                            (pendingJobs (this w) ++ pushed))]
            /\ suspended (env w') =
               suspended (env w) ++
               [(length (invoked (env w)),
                 firstn (deleteCount (batchSize (this w))
                                     (length (pendingJobs (this w) ++ pushed)))
                        (pendingJobs (this w) ++ pushed))])).
Proof.
  intros Sw. destruct ev as [ j | | t | c o ]; cbn [step].
  - unfold submitJob. destruct (isShuttingDown (this w)) eqn:Esd.
    + intros H. apply some_eq in H. subst w'. exists []. cbn [map].
      rewrite !app_nil_r. auto 10.
    + destruct (pushJob_fields j w)
        as (_ & Hq1 & Hp1 & Hs1 & _ & Hi1 & _ & _ & Hbs1 & _).
      destruct (pushJob j w) as [p1 w1]. cbn [fst snd] in *.
      destruct (lengthReaches _ _); intros H; apply some_eq in H; subst w';
        exists [{| job := j; resolve := length (promises (env w)) |}].
      * destruct (processBatch_this w1) as (Hq2 & _).
        destruct (processBatch_env w1) as (_ & _ & Hp2 & _ & Hi2 & Hs2 & _).
        rewrite Hp2, Hp1, Hq2, Hi2, Hs2, Hi1, Hs1.
        unfold batchOf, restOf, splice; simpl. rewrite Hq1, Hbs1.
        split; [ reflexivity | ]. split; [ right; exists j; auto | ].
        right. repeat split; auto. destruct (pendingJobs (this w)); discriminate.
      * destruct (armBatchTimer_fields w1) as (Hq3 & Hs3 & Hp3 & _ & Hi3 & _).
        rewrite Hp3, Hp1, Hq3, Hq1, Hi3, Hi1, Hs3, Hs1.
        split; [ reflexivity | ]. split; [ right; exists j; auto | ].
        left. auto.
  - intros H. apply some_eq in H. subst w'. exists []. cbn [map]. rewrite !app_nil_r.
    destruct (shutdown_fields w) as (Hp & _ & _ & _ & _ & _ & Hq).
    destruct (shutdown_dispatch w) as (Hi & _).
    destruct (shutdown_calls w) as (Hs & _).
    rewrite Hp, Hq, Hi, Hs. split; [ reflexivity | ]. split; [ auto | ].
    destruct (0 <? length (pendingJobs (this w))) eqn:El; [ right | left; auto ].
    apply Nat.ltb_lt in El. repeat split; auto.
    intros Eq. rewrite Eq in El. simpl in El. lia.
  - destruct (fires t (env w)) as [ h | ] eqn:E; [ | discriminate ].
    intros H. apply some_eq in H. subst w'.
    destruct (fires_batchTimer Sw E) as [Hb ->].
    destruct (processBatch_this w) as (Hq2 & _).
    destruct (processBatch_env w) as (_ & _ & Hp2 & _ & Hi2 & Hs2 & _).
    exists []. cbn [map]. rewrite !app_nil_r, Hp2, Hq2, Hi2, Hs2.
    split; [ reflexivity | ]. split; [ auto | ]. right. repeat split; auto.
    apply (sound_armed Sw). rewrite Hb. discriminate.
  - intros H. destruct (settle_fields H) as (jobs & _ & Hthis & _ & Hp & Hi & _ & Hs & _).
    exists []. cbn [map]. rewrite !app_nil_r, Hp, Hthis, Hi.
    split; [ reflexivity | ]. split; [ auto | ]. left. repeat split; auto.
    right. exists c, o. auto.
Qed.

Lemma flag_step (T R : Type) (w : world T R) (ev : event T R) (w' : world T R) :
  step w ev = Some w' ->
  isShuttingDown (this w') =
  (isShuttingDown (this w) || match ev with Shutdown => true | _ => false end).
Proof.
  destruct ev as [ j | | t | c o ]; cbn [step].
  - unfold submitJob. destruct (isShuttingDown (this w)) eqn:Esd.
    + intros H. apply some_eq in H. subst w'. rewrite Esd. reflexivity.
    + destruct (pushJob_fields j w) as (_ & _ & _ & _ & _ & _ & _ & _ & _ & Hsd).
      destruct (pushJob j w) as [p1 w1]. cbn [fst snd] in *.
      destruct (lengthReaches _ _); intros H; apply some_eq in H; subst w'.
      * destruct (processBatch_this w1) as (_ & Hsd2 & _). cbn [orb]. congruence.
      * destruct (armBatchTimer_fields w1) as (_ & _ & _ & _ & _ & _ & Hsd3 & _).
        cbn [orb]. congruence.
  - intros H. apply some_eq in H. subst w'.
    destruct (shutdown_fields w) as (_ & _ & _ & _ & Hsd & _).
    rewrite Hsd. apply eq_sym, orb_true_r.
  - destruct (fires t (env w)) as [ h | ]; [ | discriminate ].
    intros H. apply some_eq in H. subst w'.
    destruct (processBatch_this (this w, h)) as (_ & Hsd & _).
    rewrite Hsd. simpl. apply eq_sym, orb_false_r.
  - intros H. destruct (settle_fields H) as (jobs & _ & Hthis & _).
    rewrite Hthis. apply eq_sym, orb_false_r.
Qed.

(** What every turn keeps from a sound world holds of every world
    reached from it. *)
Lemma run_invariant (T R : Type) (P : world T R -> Prop) :
  (forall w ev w', sound w -> P w -> step w ev = Some w' -> P w') ->
  forall evs w w', sound w -> P w -> run w evs = Some w' -> P w'.
Proof.
  intros Hstep evs. induction evs as [ | ev more IH ]; simpl; intros w w' Sw Hw H.
  - apply some_eq in H. subst w'. exact Hw.
  - destruct (step w ev) as [ w1 | ] eqn:E; [ | discriminate ].
    apply (IH w1 w' (sound_step Sw E) (Hstep _ _ _ Sw Hw E) H).
Qed.

Lemma reachable_invariant (T R : Type) (P : world T R -> Prop)
      (cfg : option BatchingConfig) :
  P (create cfg) ->
  (forall w ev w', sound w -> P w -> step w ev = Some w' -> P w') ->
  forall w, reachable cfg w -> P w.
Proof.
  intros H0 Hstep w [evs H].
  apply (run_invariant Hstep (sound_create T R cfg) H0 H).
Qed.

(** ** Batches follow the order of submission *)

(** X1: the payloads handed to the batch processor, call after call,
    followed by the payloads still queued, are the payloads of the
    accepted jobs in the order of their submission: no job is skipped,
    repeated or overtaken, whatever the configuration. *)
Theorem dispatch_order_is_submission_order
        (T R : Type) (cfg : option BatchingConfig) (w : world T R) :
  reachable cfg w ->
  concat (invoked (env w))
  ++ map (fun j => Job.payload (job j)) (pendingJobs (this w))
  = map (@Job.payload T) (promises (env w)).
Proof.
  apply (reachable_invariant
           (P := fun w => concat (invoked (env w))
                          ++ map (fun j => Job.payload (job j)) (pendingJobs (this w))
                          = map (@Job.payload T) (promises (env w)))).
  - reflexivity.
  - clear w. intros w ev w' Sw Hw H.
    destruct (step_shape Sw H) as (pushed & Hp & _ & [ (Hq & Hi & _) | (_ & Hq & Hi & _) ]).
    + rewrite Hp, Hq, Hi, !map_app, app_assoc, Hw, map_map. reflexivity.
    + rewrite Hp, Hq, Hi, concat_app. simpl. rewrite app_nil_r, <- app_assoc.
      rewrite <- map_app, firstn_skipn, !map_app, app_assoc, Hw, map_map.
      reflexivity.
Qed.

Lemma dispatch_order_is_submission_order_witness :
  concat (invoked (env twoInFlight))
  ++ map (fun j => Job.payload (job j)) (pendingJobs (this twoInFlight))
  = [1%Z; 2%Z].
Proof.
  assert (reachable (config 2 1000) twoInFlight) as Hreach
      by (exists [Submit job1; Submit job2]; reflexivity).
  rewrite (dispatch_order_is_submission_order Hreach). reflexivity.
Defined.

(** ** What a delivered [JobResult] looks like *)

Lemma processBatchResume_shape (T R : Type) (jobs : list (InternalJob T))
      (o : settlement R) (p : handle) (r : JobResult.t R) :
  In (p, r) (processBatchResume jobs o) ->
  (exists v, JobResult.result r = Some v /\ JobResult.error r = None)
  \/ (exists e, JobResult.result r = None /\ JobResult.error r = Some e).
Proof.
  assert (forall e, In (p, r) (resolveWithError jobs e) ->
                    exists e', JobResult.result r = None /\ JobResult.error r = Some e')
    as Herr.
  { intros e H. unfold resolveWithError in H. apply in_map_iff in H.
    destruct H as (j & E & _). injection E as _ <-. exists (asError e). auto. }
  destruct o as [ results | e ]; [ | intros H; right; apply (Herr e H) ].
  rewrite processBatchResume_fulfilled. intros H. apply in_app_iff in H.
  destruct H as [ H | H ].
  - left. unfold paired in H. apply in_map_iff in H. destruct H as ([j v] & E & _).
    injection E as _ <-. exists v. auto.
  - destruct (length jobs <? length results); [ | destruct H ].
    right. apply (Herr _ H).
Qed.

(** X7: whatever the batch processor returns, every [JobResult] handed
    to a promise carries the [id] of the job that promise was made for
    and has exactly one of [result] and [error] set. *)
Theorem delivered_result_is_well_formed
        (T R : Type) (cfg : option BatchingConfig) (w : world T R)
        (p : handle) (r : JobResult.t R) :
  reachable cfg w ->
  In (p, r) (resolved (env w)) ->
  exists j,
    nth_error (promises (env w)) p = Some j
    /\ JobResult.id r = Job.id j
    /\ ((exists v, JobResult.result r = Some v /\ JobResult.error r = None)
        \/ (exists e, JobResult.result r = None /\ JobResult.error r = Some e)).
Proof.
  intros Hreach Hin. pose proof (sound_reachable Hreach) as Sw.
  destruct (sound_resolved Sw _ _ Hin) as (_ & j & Hj & Hid).
  exists j. split; [ exact Hj | ]. split; [ exact Hid | ].
  clear Hj Hid Sw j. revert p r Hin.
  apply (reachable_invariant
           (P := fun w => forall p r, In (p, r) (resolved (env w)) ->
                   (exists v, JobResult.result r = Some v /\ JobResult.error r = None)
                   \/ (exists e, JobResult.result r = None /\ JobResult.error r = Some e))
           (cfg := cfg)); [ | | exact Hreach ].
  - intros p r [].
  - clear w Hreach. intros w ev w' Sw Hw H p r Hin.
    destruct (step_tally Sw H)
      as [ (j & _ & _ & _ & _ & Hr)
         | [ (_ & _ & Hr) | (c & o & jobs & _ & _ & _ & _ & Hr & _) ] ];
      rewrite Hr in Hin; try (apply (Hw p r Hin)).
    apply in_app_iff in Hin. destruct Hin as [ Hin | Hin ].
    + apply (Hw p r Hin).
    + apply (processBatchResume_shape Hin).
Qed.

Lemma delivered_result_is_well_formed_witness :
  exists w',
    settle 0 (Fulfilled [1; 4; 9]%Z) twoInFlight = Some w'
    /\ forall p r, In (p, r) (resolved (env w')) ->
         (exists v, JobResult.result r = Some v /\ JobResult.error r = None)
         \/ (exists e, JobResult.result r = None /\ JobResult.error r = Some e).
Proof.
  destruct (settle 0 (Fulfilled [1; 4; 9]%Z) twoInFlight) as [ w' | ] eqn:E;
    [ | discriminate ].
  exists w'. split; [ reflexivity | ].
  assert (reachable (config 2 1000) w') as Hreach.
  { exists [Submit job1; Submit job2; Settle 0 (Fulfilled [1; 4; 9]%Z)].
    apply some_eq in E. subst w'. reflexivity. }
  intros p r Hin.
  destruct (delivered_result_is_well_formed Hreach Hin) as (j & _ & _ & H).
  exact H.
Defined.

(** ** The shutdown flag is a latch *)

Lemma latched_step (T R : Type) (w : world T R) (ev : event T R) (w' : world T R) :
  (isShuttingDown (this w) = true -> batchTimer (this w) = None) ->
  step w ev = Some w' ->
  isShuttingDown (this w') = true -> batchTimer (this w') = None.
Proof.
  intros Hw H Hflag. pose proof (flag_step H) as Hf. rewrite Hflag in Hf.
  destruct ev as [ j | | t | c o ]; cbn [step] in H.
  - rewrite orb_false_r in Hf. unfold submitJob in H. rewrite <- Hf in H.
    apply some_eq in H. subst w'. apply Hw. auto.
  - apply some_eq in H. subst w'.
    destruct (shutdown_fields w) as (_ & _ & _ & _ & _ & Hb & _). exact Hb.
  - destruct (fires t (env w)) as [ h | ]; [ | discriminate ].
    apply some_eq in H. subst w'.
    destruct (processBatch_this (this w, h)) as (_ & _ & _ & _ & Hb). exact Hb.
  - rewrite orb_false_r in Hf.
    destruct (settle_fields H) as (jobs & _ & Hthis & _). rewrite Hthis. auto.
Qed.

Lemma latched_reachable (T R : Type) (cfg : option BatchingConfig) (w : world T R) :
  reachable cfg w -> isShuttingDown (this w) = true -> batchTimer (this w) = None.
Proof.
  apply (reachable_invariant
           (P := fun w => isShuttingDown (this w) = true -> batchTimer (this w) = None)).
  - discriminate.
  - intros w0 ev w' _ Hw H. apply (latched_step Hw H).
Qed.

(** X3: the shutdown flag never goes back. From a world in which it is
    set, after any turns: it is still set, no promise has been made
    since, no timer is outstanding, and [submitJob] throws the shutdown
    error. *)
Theorem shutdown_flag_is_a_latch
        (T R : Type) (cfg : option BatchingConfig) (w : world T R)
        (evs : list (event T R)) (w' : world T R) :
  reachable cfg w ->
  isShuttingDown (this w) = true ->
  run w evs = Some w' ->
  isShuttingDown (this w') = true
  /\ promises (env w') = promises (env w)
  /\ outstandingTimers w' = []
  /\ forall j, submitJob j w' =
               Threw {| message := "Cannot submit job - the system is shutting down." |}.
Proof.
  intros Hreach Hflag Hrun. pose proof (sound_reachable Hreach) as Sw.
  assert (isShuttingDown (this w') = true
          /\ promises (env w') = promises (env w)
          /\ batchTimer (this w') = None) as (Hf & Hp & Hb).
  { apply (run_invariant
             (P := fun w1 => isShuttingDown (this w1) = true
                             /\ promises (env w1) = promises (env w)
                             /\ batchTimer (this w1) = None))
      with (evs := evs) (w := w); auto.
    - intros w1 ev w2 S1 (Hf1 & Hp1 & Hb1) H.
      pose proof (flag_step H) as Hf2. rewrite Hf1 in Hf2. simpl in Hf2.
      split; [ exact Hf2 | ]. split.
      + destruct (step_tally S1 H)
          as [ (j & _ & Hno & _) | [ (Hp2 & _) | (c & o & jobs & _ & _ & Hp2 & _) ] ];
          congruence.
      + apply (latched_step (fun _ => Hb1) H Hf2).
    - repeat split; auto. apply (latched_reachable Hreach Hflag). }
  split; [ exact Hf | ]. split; [ exact Hp | ]. split.
  - pose proof (sound_timer (sound_run Sw Hrun)) as St. rewrite Hb in St. exact St.
  - intros j. unfold submitJob. rewrite Hf. reflexivity.
Qed.

Lemma shutdown_flag_is_a_latch_witness :
  exists w',
    run (shutdown twoInFlight) [Submit job3; Settle 0 (Fulfilled [1; 4]%Z)] = Some w'
    /\ isShuttingDown (this w') = true
    /\ promises (env w') = [job1; job2].
Proof.
  destruct (run (shutdown twoInFlight) [Submit job3; Settle 0 (Fulfilled [1; 4]%Z)])
    as [ w' | ] eqn:E; [ | discriminate ].
  exists w'. split; [ reflexivity | ].
  assert (reachable (config 2 1000) (shutdown twoInFlight)) as Hreach
      by (exists [Submit job1; Submit job2; Shutdown]; reflexivity).
  destruct (shutdown_flag_is_a_latch Hreach eq_refl E) as (Hf & Hp & _).
  split; [ exact Hf | ]. rewrite Hp. reflexivity.
Defined.

(** ** The configuration *)

Lemma batchFrequency_step (T R : Type) (w : world T R) (ev : event T R) (w' : world T R) :
  step w ev = Some w' -> batchFrequency (this w') = batchFrequency (this w).
Proof.
  assert (forall j (w0 : world T R),
             batchFrequency (this (snd (pushJob j w0))) = batchFrequency (this w0))
    as Hpush by (intros j w0; open_world w0; reflexivity).
  assert (forall w0 : world T R,
             batchFrequency (this (armBatchTimer w0)) = batchFrequency (this w0))
    as Harm
      by (intros w0; open_world w0; unfold armBatchTimer; simpl; destruct bt; reflexivity).
  assert (forall w0 : world T R,
             batchFrequency (this (shutdown w0)) = batchFrequency (this w0))
    as Hdown.
  { intros w0. open_world w0. unfold shutdown, processBatch, clearBatchTimer, splice.
    simpl. destruct bt; destruct q; reflexivity. }
  destruct ev as [ j | | t | c o ]; cbn [step].
  - unfold submitJob. destruct (isShuttingDown (this w)).
    + intros H. apply some_eq in H. subst w'. reflexivity.
    + specialize (Hpush j w). destruct (pushJob j w) as [p1 w1]. cbn [fst snd] in *.
      destruct (lengthReaches _ _); intros H; apply some_eq in H; subst w'.
      * destruct (processBatch_this w1) as (_ & _ & _ & Hbf & _). congruence.
      * rewrite Harm. exact Hpush.
  - intros H. apply some_eq in H. subst w'. apply Hdown.
  - destruct (fires t (env w)) as [ h | ]; [ | discriminate ].
    intros H. apply some_eq in H. subst w'.
    destruct (processBatch_this (this w, h)) as (_ & _ & _ & Hbf & _). exact Hbf.
  - intros H. destruct (settle_fields H) as (jobs & _ & Hthis & _).
    rewrite Hthis. reflexivity.
Qed.

Lemma orDefault_is_truthy (x : option number) (d : number) :
  truthy d = true -> truthy (orDefault x d) = true.
Proof.
  intros Hd. destruct x as [ n | ]; simpl; [ | exact Hd ].
  destruct (truthy n) eqn:E; [ exact E | exact Hd ].
Qed.

(** X11: the configuration is fixed at construction and is never
    falsy. In every world the coordinator can be in, [batchSize] and
    [batchFrequency] are the values the constructor chose, and neither
    is [NaN] or zero. *)
Theorem configuration_is_fixed_and_truthy
        (T R : Type) (cfg : option BatchingConfig) (w : world T R) :
  reachable cfg w ->
  batchSize (this w) = batchSize (constructor (T := T) cfg)
  /\ batchFrequency (this w) = batchFrequency (constructor (T := T) cfg)
  /\ truthy (batchSize (this w)) = true
  /\ truthy (batchFrequency (this w)) = true.
Proof.
  intros Hreach.
  assert (batchSize (this w) = batchSize (constructor (T := T) cfg)
          /\ batchFrequency (this w) = batchFrequency (constructor (T := T) cfg))
    as (Hs & Hf).
  { revert w Hreach.
    apply (reachable_invariant
             (P := fun w => batchSize (this w) = batchSize (constructor (T := T) cfg)
                            /\ batchFrequency (this w)
                               = batchFrequency (constructor (T := T) cfg))).
    - split; reflexivity.
    - intros w ev w' _ (Hs & Hf) H.
      rewrite (batchSize_step H), (batchFrequency_step H). auto. }
  rewrite Hs, Hf. repeat split; apply orDefault_is_truthy; reflexivity.
Qed.

Lemma configuration_is_fixed_and_truthy_witness :
  batchSize (this (shutdown twoInFlight)) = ofZ 2
  /\ batchFrequency (this (shutdown twoInFlight)) = ofZ 1000.
Proof.
  assert (reachable (config 2 1000) (shutdown twoInFlight)) as Hreach
      by (exists [Submit job1; Submit job2; Shutdown]; reflexivity).
  destruct (configuration_is_fixed_and_truthy Hreach) as (Hs & Hf & _).
  rewrite Hs, Hf. split; reflexivity.
Defined.

(** ** Submission with a positive integer batch size *)

Lemma bounded_reachable (T R : Type) (cfg : option BatchingConfig) (b : nat)
      (w : world T R) :
  1 <= b -> batchSize (constructor (T := T) cfg) = ofNat b ->
  reachable cfg w -> bounded b w.
Proof.
  intros Hb Hcfg [evs Hrun].
  apply (bounded_run Hb (sound_create T R cfg) (bounded_create R Hb Hcfg) Hrun).
Qed.

Lemma submit_bounded (T R : Type) (w : world T R) (b : nat) (j : Job.t T) :
  1 <= b -> sound w -> bounded b w -> isShuttingDown (this w) = false ->
  exists w',
    submitJob j w = Returned (length (promises (env w)), w')
    /\ promises (env w') = promises (env w) ++ [j]
    /\ resolved (env w') = resolved (env w)
    /\ isShuttingDown (this w') = false
    /\ length (pendingJobs (this w)) + 1 <= b
    /\ (length (pendingJobs (this w)) + 1 = b ->
        pendingJobs (this w') = []
        /\ invoked (env w') =
           invoked (env w) ++
           [map (fun i => Job.payload (job i))
                (pendingJobs (this w) ++
                 [{| job := j; resolve := length (promises (env w)) |}])]
        /\ outstandingTimers w' = [])
    /\ (length (pendingJobs (this w)) + 1 < b ->
        pendingJobs (this w') =
          pendingJobs (this w) ++ [{| job := j; resolve := length (promises (env w)) |}]
        /\ invoked (env w') = invoked (env w)
        /\ exists t, outstandingTimers w' = [t]).
Proof.
  intros Hb Sw (Hbs & Hlen & _ & _) Hflag.
  destruct (pushJob_fields j w) as (Hp0 & Hq1 & Hp1 & _ & Hr1 & Hi1 & _ & _ & Hbs1 & Hsd1).
  pose proof (sound_pushJob j Sw) as S1.
  unfold submitJob. rewrite Hflag.
  destruct (pushJob j w) as [p1 w1]. cbn [fst snd] in *. subst p1.
  assert (length (pendingJobs (this w1)) = length (pendingJobs (this w)) + 1) as Hl
      by (rewrite Hq1, length_app; reflexivity).
  rewrite Hbs1, Hbs, lengthReaches_ofNat, Hl.
  destruct (Nat.leb_spec b (length (pendingJobs (this w)) + 1)) as [Hle | Hgt].
  - exists (fst (processBatch w1)).
    destruct (processBatch_this w1) as (Hq2 & Hsd2 & _ & _ & Hb2).
    destruct (processBatch_env w1) as (_ & _ & Hp2 & Hr2 & Hi2 & _).
    destruct (restOf_all (w := w1) (b := b)) as [Hrest Hbatch];
      [ congruence | lia | ].
    pose proof (sound_timer (sound_processBatch S1)) as St. rewrite Hb2 in St.
    rewrite Hp2, Hr2, Hsd2, Hq2, Hi2, Hrest, Hbatch, Hp1, Hr1, Hsd1, Hi1, Hq1.
    repeat split; auto; lia.
  - exists (armBatchTimer w1).
    destruct (armBatchTimer_fields w1) as (Hq3 & _ & Hp3 & Hr3 & Hi3 & _ & Hsd3 & _ & _ & Hb3).
    pose proof (sound_armBatchTimer (w := w1)) as S3.
    assert (pendingJobs (this w1) <> []) as Hne
        by (rewrite Hq1; destruct (pendingJobs (this w)); discriminate).
    pose proof (sound_timer (S3 Hne S1)) as St.
    rewrite Hp3, Hr3, Hsd3, Hq3, Hi3, Hp1, Hr1, Hsd1, Hi1, Hq1.
    repeat split; auto; try lia.
    destruct (batchTimer (this (armBatchTimer w1))) as [ t | ]; [ | congruence ].
    exists t. exact St.
Qed.

(** X12: with a batch size that is the positive integer [b], a
    submission that brings the queue to [b] jobs dispatches the whole
    queue at once, in order, and leaves no job queued and no timer
    outstanding; a submission that leaves the queue below [b] does not
    call the batch processor and leaves the job queued under exactly
    one timer. The queue never holds [b] jobs between turns. *)
Theorem submit_dispatches_at_batchSize
        (T R : Type) (cfg : option BatchingConfig) (b : nat) (w : world T R)
        (j : Job.t T) :
  1 <= b -> batchSize (constructor (T := T) cfg) = ofNat b ->
  reachable cfg w -> isShuttingDown (this w) = false ->
  exists w',
    submitJob j w = Returned (length (promises (env w)), w')
    /\ length (pendingJobs (this w)) + 1 <= b
    /\ (length (pendingJobs (this w)) + 1 = b ->
        pendingJobs (this w') = []
        /\ invoked (env w') =
           invoked (env w) ++
           [map (fun i => Job.payload (job i))
                (pendingJobs (this w) ++
                 [{| job := j; resolve := length (promises (env w)) |}])]
        /\ outstandingTimers w' = [])
    /\ (length (pendingJobs (this w)) + 1 < b ->
        pendingJobs (this w') =
          pendingJobs (this w) ++ [{| job := j; resolve := length (promises (env w)) |}]
        /\ invoked (env w') = invoked (env w)
        /\ exists t, outstandingTimers w' = [t]).
Proof.
  intros Hb Hcfg Hreach Hflag.
  destruct (submit_bounded j Hb (sound_reachable Hreach)
                           (bounded_reachable Hb Hcfg Hreach) Hflag)
    as (w' & Hs & _ & _ & _ & Hle & Hfull & Hpart).
  exists w'. auto.
Qed.

Lemma submit_dispatches_at_batchSize_witness :
  exists w',
    submitJob job3 twoInFlight = Returned (2, w')
    /\ pendingJobs (this w') = [{| job := job3; resolve := 2 |}]
    /\ invoked (env w') = [[1%Z; 2%Z]].
Proof.
  assert (reachable (config 2 1000) twoInFlight) as Hreach
      by (exists [Submit job1; Submit job2]; reflexivity).
  destruct (submit_dispatches_at_batchSize (cfg := config 2 1000) (b := 2) job3
                                           (le_S 1 1 (le_n 1)) eq_refl Hreach eq_refl)
    as (w' & Hs & _ & _ & Hpart).
  exists w'. split; [ exact Hs | ].
  destruct (Hpart (le_n 2)) as (Hq & Hi & _). rewrite Hq, Hi. split; reflexivity.
Defined.

(** ** Back-to-back submissions *)

Lemma submissions_run (T R : Type) (b : nat) (jobs : list (Job.t T)) :
  1 <= b ->
  forall w : world T R,
    sound w -> bounded b w -> isShuttingDown (this w) = false ->
    Forall (fun payloads => length payloads = b) (invoked (env w)) ->
    length (promises (env w))
    = b * length (invoked (env w)) + length (pendingJobs (this w)) ->
    exists w',
      run w (map Submit jobs) = Some w'
      /\ Forall (fun payloads => length payloads = b) (invoked (env w'))
      /\ length (promises (env w'))
         = b * length (invoked (env w')) + length (pendingJobs (this w'))
      /\ length (pendingJobs (this w')) < b
      /\ promises (env w') = promises (env w) ++ jobs
      /\ resolved (env w') = resolved (env w).
Proof.
  intros Hb. induction jobs as [ | j jobs IH ]; intros w Sw B Hflag Hall Hcount.
  - exists w. simpl. rewrite app_nil_r. destruct B as (_ & Hlen & _). auto 10.
  - destruct (submit_bounded j Hb Sw B Hflag)
      as (w1 & Hs & Hp1 & Hr1 & Hflag1 & Hle & Hfull & Hpart).
    assert (step w (Submit j) = Some w1) as Hstep by (cbn [step]; rewrite Hs; reflexivity).
    assert (Forall (fun payloads => length payloads = b) (invoked (env w1))
            /\ length (promises (env w1))
               = b * length (invoked (env w1)) + length (pendingJobs (this w1)))
      as (Hall1 & Hcount1).
    { rewrite Hp1, length_app. simpl.
      destruct (Nat.eq_dec (length (pendingJobs (this w)) + 1) b) as [E | E].
      - destruct (Hfull E) as (Hq & Hi & _). rewrite Hq, Hi, length_app. simpl. split.
        + apply Forall_app. split; [ exact Hall | ]. constructor; [ | constructor ].
          rewrite length_map, length_app. simpl. exact E.
        + nia.
      - assert (length (pendingJobs (this w)) + 1 < b) as Hlt by lia.
        destruct (Hpart Hlt) as (Hq & Hi & _). rewrite Hq, Hi, length_app. simpl.
        split; [ exact Hall | lia ]. }
    destruct (IH w1 (sound_step Sw Hstep) (bounded_step Hb Sw B Hstep) Hflag1 Hall1 Hcount1)
      as (w' & Hrun & Hall' & Hcount' & Hlen' & Hp' & Hr').
    exists w'. cbn [map run]. rewrite Hstep.
    repeat split; auto.
    + rewrite Hp', Hp1, <- app_assoc. reflexivity.
    + congruence.
Qed.

(** X5: [n] jobs submitted back to back to a new coordinator whose
    batch size is the positive integer [b] are all accepted; the batch
    processor has then been called [n / b] times, each time with
    exactly [b] payloads, and [n mod b] jobs are queued. *)
Theorem back_to_back_submissions
        (T R : Type) (cfg : option BatchingConfig) (b : nat) (jobs : list (Job.t T)) :
  1 <= b -> batchSize (constructor (T := T) cfg) = ofNat b ->
  exists w : world T R,
    run (create cfg) (map Submit jobs) = Some w
    /\ promises (env w) = jobs
    /\ length (invoked (env w)) = length jobs / b
    /\ length (pendingJobs (this w)) = length jobs mod b
    /\ Forall (fun payloads => length payloads = b) (invoked (env w)).
Proof.
  intros Hb Hcfg.
  destruct (submissions_run (R := R) jobs Hb (sound_create T R cfg)
                            (bounded_create R Hb Hcfg) eq_refl)
    as (w & Hrun & Hall & Hcount & Hlen & Hp & Hr).
  - constructor.
  - simpl. lia.
  - simpl in Hp. rewrite Hp in Hcount.
    exists w. repeat split; auto.
    + apply (Nat.div_unique _ _ _ _ Hlen Hcount).
    + apply (Nat.mod_unique _ _ _ _ Hlen Hcount).
Qed.

Lemma back_to_back_submissions_witness :
  exists w : world Z Z,
    run (create (config 2 1000)) [Submit job1; Submit job2; Submit job3] = Some w
    /\ length (invoked (env w)) = 1
    /\ length (pendingJobs (this w)) = 1.
Proof.
  destruct (@back_to_back_submissions Z Z (config 2 1000) 2
                                      [job1; job2; job3] (le_S 1 1 (le_n 1)) eq_refl)
    as (w & Hrun & _ & Hi & Hq & _).
  exists w. split; [ exact Hrun | ]. rewrite Hi, Hq. split; reflexivity.
Defined.

(** ** The size of a batch *)

(** X4: with a batch size that is the positive integer [b], between
    turns the queue holds fewer than [b] jobs, and every call of the
    batch processor was made with at least one and at most [b]
    payloads. *)
Theorem batches_hold_one_to_batchSize_jobs
        (T R : Type) (cfg : option BatchingConfig) (b : nat) (w : world T R) :
  1 <= b -> batchSize (constructor (T := T) cfg) = ofNat b ->
  reachable cfg w ->
  length (pendingJobs (this w)) < b
  /\ Forall (fun payloads => 1 <= length payloads <= b) (invoked (env w)).
Proof.
  intros Hb Hcfg Hreach.
  assert (bounded b w
          /\ Forall (fun payloads => 1 <= length payloads <= b) (invoked (env w)))
    as (B & Hall).
  { revert w Hreach.
    apply (reachable_invariant
             (P := fun w => bounded b w
                            /\ Forall (fun payloads => 1 <= length payloads <= b)
                                      (invoked (env w)))).
    - split; [ apply (bounded_create R Hb Hcfg) | constructor ].
    - intros w ev w' Sw (B & Hall) H. split; [ apply (bounded_step Hb Sw B H) | ].
      destruct B as (Hbs & _).
      destruct (step_shape Sw H)
        as (pushed & _ & _ & [ (_ & Hi & _) | (Hne & _ & Hi & _) ]);
        rewrite Hi; [ exact Hall | ].
      apply Forall_app. split; [ exact Hall | ]. constructor; [ | constructor ].
      rewrite length_map, length_firstn, Hbs, deleteCount_ofNat.
      destruct (pendingJobs (this w) ++ pushed); [ congruence | simpl; lia ]. }
  split; [ apply B | exact Hall ].
Qed.

Lemma batches_hold_one_to_batchSize_jobs_witness :
  length (pendingJobs (this twoInFlight)) < 2
  /\ Forall (fun payloads : list Z => 1 <= length payloads <= 2)
            (invoked (env twoInFlight)).
Proof.
  assert (reachable (config 2 1000) twoInFlight) as Hreach
      by (exists [Submit job1; Submit job2]; reflexivity).
  apply (batches_hold_one_to_batchSize_jobs (cfg := config 2 1000)
                                            (le_S 1 1 (le_n 1)) eq_refl Hreach).
Defined.

(** ** What [shutdown] does *)

(** X10: with a batch size that is a positive integer, [shutdown]
    leaves the flag set, the queue empty, no timer outstanding and the
    promises made as they were. If the queue was empty it does not call
    the batch processor, resolves nothing, and its promise is fulfilled
    at once (so a second [shutdown] changes nothing but that count);
    otherwise it calls the batch processor once, with the payloads of
    the whole queue in order, and its promise is not fulfilled in that
    call: it waits for the cycle it has started. *)
Theorem shutdown_drains_the_queue
        (T R : Type) (cfg : option BatchingConfig) (b : nat) (w : world T R) :
  1 <= b -> batchSize (constructor (T := T) cfg) = ofNat b ->
  reachable cfg w ->
  pendingJobs (this (shutdown w)) = []
  /\ isShuttingDown (this (shutdown w)) = true
  /\ outstandingTimers (shutdown w) = []
  /\ promises (env (shutdown w)) = promises (env w)
  /\ (pendingJobs (this w) = [] ->
      invoked (env (shutdown w)) = invoked (env w)
      /\ suspended (env (shutdown w)) = suspended (env w)
      /\ resolved (env (shutdown w)) = resolved (env w)
      /\ awaiting (env (shutdown w)) = awaiting (env w)
      /\ shutdownsCompleted (env (shutdown w)) = S (shutdownsCompleted (env w)))
  /\ (pendingJobs (this w) <> [] ->
      invoked (env (shutdown w)) =
        invoked (env w) ++ [map (fun j => Job.payload (job j)) (pendingJobs (this w))]
      /\ awaiting (env (shutdown w)) = awaiting (env w) ++ [length (invoked (env w))]
      /\ shutdownsCompleted (env (shutdown w)) = shutdownsCompleted (env w)).
Proof.
  intros Hb Hcfg Hreach. pose proof (sound_reachable Hreach) as Sw.
  pose proof (bounded_reachable Hb Hcfg Hreach) as B.
  assert (step w Shutdown = Some (shutdown w)) as Hstep by reflexivity.
  destruct (bounded_step Hb Sw B Hstep) as (_ & _ & _ & Hempty).
  destruct B as (Hbs & Hlen & _).
  destruct (shutdown_fields w) as (Hp & Hr & _ & _ & Hsd & Hbt & _).
  destruct (shutdown_dispatch w) as (Hi & _).
  destruct (shutdown_calls w) as (Hs & Ha & Hc).
  destruct (restOf_all (w := w) Hbs) as [_ Hbatch]; [ lia | ].
  pose proof (sound_timer (sound_shutdown Sw)) as St. rewrite Hbt in St.
  rewrite Hi, Hs, Ha, Hc, Hbatch.
  split; [ apply Hempty; exact Hsd | ]. split; [ exact Hsd | ].
  split; [ exact St | ]. split; [ exact Hp | ].
  split; intros Hq.
  - rewrite Hq. simpl. auto 10.
  - destruct (pendingJobs (this w)); [ congruence | simpl; auto ].
Qed.

Lemma shutdown_drains_the_queue_witness :
  (invoked (env (shutdown oneQueued)) = [[1%Z]]
   /\ awaiting (env (shutdown oneQueued)) = [0]
   /\ shutdownsCompleted (env (shutdown oneQueued)) = 0)
  /\ (invoked (env (shutdown twoInFlight)) = [[1%Z; 2%Z]]
      /\ shutdownsCompleted (env (shutdown twoInFlight)) = 1).
Proof.
  assert (reachable (config 2 1000) oneQueued) as Hreach1
      by (exists [Submit job1]; reflexivity).
  assert (reachable (config 2 1000) twoInFlight) as Hreach2
      by (exists [Submit job1; Submit job2]; reflexivity).
  destruct (shutdown_drains_the_queue (cfg := config 2 1000)
                                      (le_S 1 1 (le_n 1)) eq_refl Hreach1)
    as (_ & _ & _ & _ & _ & Hdrain).
  destruct (shutdown_drains_the_queue (cfg := config 2 1000)
                                      (le_S 1 1 (le_n 1)) eq_refl Hreach2)
    as (_ & _ & _ & _ & Hidle & _).
  split.
  - destruct Hdrain as (Hi & Ha & Hc); [ discriminate | ].
    rewrite Hi, Ha, Hc. repeat split.
  - destruct (Hidle eq_refl) as (Hi & _ & _ & _ & Hc). rewrite Hi, Hc. split; reflexivity.
Defined.

(** ** When the promise of [shutdown] is fulfilled *)

Lemma step_shutdowns (T R : Type) (w : world T R) (ev : event T R) (w' : world T R) :
  step w ev = Some w' ->
  match ev with
  | Shutdown =>
      (pendingJobs (this w) = []
       /\ awaiting (env w') = awaiting (env w)
       /\ shutdownsCompleted (env w') = S (shutdownsCompleted (env w)))
      \/ (pendingJobs (this w) <> []
          /\ awaiting (env w') = awaiting (env w) ++ [length (invoked (env w))]
          /\ shutdownsCompleted (env w') = shutdownsCompleted (env w))
  | Settle c o =>
      awaiting (env w') = filter (fun c' => negb (c' =? c)) (awaiting (env w))
      /\ shutdownsCompleted (env w') =
         length (filter (fun c' => c' =? c) (awaiting (env w)))
         + shutdownsCompleted (env w)
  | _ =>
      awaiting (env w') = awaiting (env w)
      /\ shutdownsCompleted (env w') = shutdownsCompleted (env w)
  end.
Proof.
  assert (forall j (w0 : world T R),
             awaiting (env (snd (pushJob j w0))) = awaiting (env w0)
             /\ shutdownsCompleted (env (snd (pushJob j w0)))
                = shutdownsCompleted (env w0))
    as Hpush by (intros j w0; open_world w0; split; reflexivity).
  destruct ev as [ j | | t | c o ]; cbn [step].
  - unfold submitJob. destruct (isShuttingDown (this w)).
    + intros H. apply some_eq in H. subst w'. auto.
    + specialize (Hpush j w). destruct (pushJob j w) as [p1 w1]. cbn [fst snd] in *.
      destruct Hpush as [Ha Hc].
      destruct (lengthReaches _ _); intros H; apply some_eq in H; subst w'.
      * destruct (processBatch_env w1) as (_ & _ & _ & _ & _ & _ & Ha2 & Hc2 & _).
        rewrite Ha2, Hc2. auto.
      * destruct (armBatchTimer_fields w1) as (_ & _ & _ & _ & _ & _ & _ & Ha3 & Hc3 & _).
        rewrite Ha3, Hc3. auto.
  - intros H. apply some_eq in H. subst w'.
    destruct (shutdown_calls w) as (_ & Ha & Hc). rewrite Ha, Hc.
    destruct (pendingJobs (this w)); simpl; [ left; auto | right ].
    repeat split; auto. discriminate.
  - unfold fires. destruct (existsb _ _); [ | discriminate ].
    intros H. apply some_eq in H. subst w'.
    destruct (processBatch_env (this w, clearTimeout t (env w)))
      as (_ & _ & _ & _ & _ & _ & Ha & Hc & _).
    rewrite Ha, Hc. split; reflexivity.
  - intros H. destruct (settle_fields H) as (jobs & _ & _ & _ & _ & _ & _ & _ & Ha & Hc).
    auto.
Qed.




(** ** A batch processor that maps every payload *)

Lemma frameOf_member (T : Type) (frames : list (call * list (InternalJob T)))
      (c : call) (jobs : list (InternalJob T)) :
  frameOf c frames = Some jobs -> In (c, jobs) frames.
Proof.
  induction frames as [ | [c' js] more IH ]; simpl; intros H; [ discriminate | ].
  destruct (Nat.eqb_spec c' c) as [E | E].
  - apply some_eq in H. subst c' js. left. reflexivity.
  - right. apply IH. exact H.
Qed.

(** The frame suspended on call [c] holds the jobs whose payloads were
    the argument of call [c]. *)
Lemma frames_step (T R : Type) (w : world T R) (ev : event T R) (w' : world T R) :
  sound w ->
  (forall c jobs, In (c, jobs) (suspended (env w)) ->
     nth_error (invoked (env w)) c = Some (map (fun j => Job.payload (job j)) jobs)) ->
  step w ev = Some w' ->
  forall c jobs, In (c, jobs) (suspended (env w')) ->
    nth_error (invoked (env w')) c = Some (map (fun j => Job.payload (job j)) jobs).
Proof.
  intros Sw Hw H c jobs Hin.
  destruct (step_shape Sw H)
    as (pushed & _ & _ & [ (_ & Hi & Hs) | (_ & _ & Hi & Hs) ]); rewrite Hi.
  - apply Hw. destruct Hs as [ Hs | (c0 & o & _ & _ & Hs) ]; rewrite Hs in Hin.
    + exact Hin.
    + apply filter_In in Hin. apply Hin.
  - rewrite Hs in Hin. apply in_app_iff in Hin. destruct Hin as [ Hin | [ E | [] ] ].
    + rewrite nth_error_app1; [ apply Hw; exact Hin | ].
      apply (proj2 (sound_calls Sw)). apply (in_map fst) in Hin. exact Hin.
    + injection E as <- <-. rewrite nth_error_app2, Nat.sub_diag; [ reflexivity | ].
      apply le_n.
Qed.

Lemma combine_map_In (A B : Type) (f : A -> B) (l : list A) (a : A) (v : B) :
  In (a, v) (combine l (map f l)) -> In a l /\ v = f a.
Proof.
  induction l as [ | x l IH ]; simpl; intros H; [ destruct H | ].
  destruct H as [ E | H ].
  - injection E as <- <-. auto.
  - destruct (IH H) as [Hin Hv]. auto.
Qed.

Lemma pointwise_step (T R : Type) (g : T -> R) (w : world T R) (ev : event T R)
      (w' : world T R) :
  sound w ->
  (forall c jobs, In (c, jobs) (suspended (env w)) ->
     nth_error (invoked (env w)) c = Some (map (fun j => Job.payload (job j)) jobs)) ->
  (forall p r, In (p, r) (resolved (env w)) ->
     exists j, nth_error (promises (env w)) p = Some j
               /\ r = JobResult.mk (Job.id j) (Some (g (Job.payload j))) None) ->
  servedBy (pointwise g) w ev ->
  step w ev = Some w' ->
  forall p r, In (p, r) (resolved (env w')) ->
    exists j, nth_error (promises (env w')) p = Some j
              /\ r = JobResult.mk (Job.id j) (Some (g (Job.payload j))) None.
Proof.
  intros Sw Hframes Hw Hserved H p r Hin.
  destruct (step_tally Sw H)
    as [ (j & _ & _ & Hp & _ & Hr)
       | [ (Hp & _ & Hr) | (c & o & jobs & -> & Hf & Hp & _ & Hr & Hjobs) ] ];
    rewrite Hr in Hin; rewrite Hp.
  - destruct (Hw p r Hin) as (j0 & Hj0 & Hr0). exists j0. split; [ | exact Hr0 ].
    rewrite nth_error_app1; [ exact Hj0 | ].
    apply nth_error_Some. rewrite Hj0. discriminate.
  - apply (Hw p r Hin).
  - apply in_app_iff in Hin. destruct Hin as [ Hin | Hin ]; [ apply (Hw p r Hin) | ].
    pose proof (Hframes c jobs (frameOf_member Hf)) as Hcall.
    simpl in Hserved. rewrite (Hserved _ Hcall) in Hin. unfold pointwise in Hin.
    rewrite processBatchResume_fulfilled in Hin.
    rewrite !length_map, Nat.ltb_irrefl, app_nil_r in Hin.
    unfold paired in Hin. apply in_map_iff in Hin.
    destruct Hin as ([j v] & E & Hin). simpl in E. injection E as <- <-.
    rewrite map_map in Hin. apply combine_map_In in Hin. destruct Hin as [Hj ->].
    exists (job j). split; [ | reflexivity ].
    apply (sound_jobs Sw). apply Hjobs. exact Hj.
Qed.

Lemma pointwise_run (T R : Type) (g : T -> R) (evs : list (event T R)) :
  forall w w' : world T R,
    sound w ->
    (forall c jobs, In (c, jobs) (suspended (env w)) ->
       nth_error (invoked (env w)) c = Some (map (fun j => Job.payload (job j)) jobs)) ->
    (forall p r, In (p, r) (resolved (env w)) ->
       exists j, nth_error (promises (env w)) p = Some j
                 /\ r = JobResult.mk (Job.id j) (Some (g (Job.payload j))) None) ->
    served (pointwise g) w evs ->
    run w evs = Some w' ->
    forall p r, In (p, r) (resolved (env w')) ->
      exists j, nth_error (promises (env w')) p = Some j
                /\ r = JobResult.mk (Job.id j) (Some (g (Job.payload j))) None.
Proof.
  induction evs as [ | ev more IH ]; simpl; intros w w' Sw Hframes Hw Hserved H.
  - apply some_eq in H. subst w'. exact Hw.
  - destruct (step w ev) as [ w1 | ] eqn:E; [ | discriminate ].
    destruct Hserved as [Hs1 Hs2].
    apply (IH w1 w' (sound_step Sw E) (frames_step Sw Hframes E)
              (pointwise_step Sw Hframes Hw Hs1 E) Hs2 H).
Qed.

(** X2: let every call of the batch processor settle as [jobs.map(g)]
    would (the [MockBatchProcessor] of the test suite is of that form).
    Then every [JobResult] a promise is handed carries the [id] of the
    job that promise was made for, the result [g] gives for that job's
    own payload, and no error. *)
Theorem pointwise_processor_answers_each_job
        (T R : Type) (g : T -> R) (cfg : option BatchingConfig)
        (evs : list (event T R)) (w : world T R) (p : handle) (r : JobResult.t R) :
  run (create cfg) evs = Some w ->
  served (pointwise g) (create cfg) evs ->
  In (p, r) (resolved (env w)) ->
  exists j,
    nth_error (promises (env w)) p = Some j
    /\ r = JobResult.mk (Job.id j) (Some (g (Job.payload j))) None.
Proof.
  intros Hrun Hserved.
  apply (pointwise_run (g := g) (evs := evs) (w := create cfg)
                       (sound_create T R cfg)); auto.
  - intros c jobs [].
  - intros p0 r0 [].
Qed.

Lemma pointwise_processor_answers_each_job_witness :
  exists w,
    run (create (config 2 1000))
        [Submit job1; Submit job2; Settle 0 (squaring [1; 2]%Z)] = Some w
    /\ forall p r, In (p, r) (resolved (env w)) ->
         exists j, nth_error (promises (env w)) p = Some j
                   /\ JobResult.result r = Some (Job.payload j * Job.payload j)%Z.
Proof.
  destruct (run (create (config 2 1000))
                [Submit job1; Submit job2; Settle 0 (squaring [1; 2]%Z)])
    as [ w | ] eqn:E; [ | discriminate ].
  exists w. split; [ reflexivity | ]. intros p r Hin.
  assert (served squaring (create (config 2 1000))
                 [Submit job1; Submit job2; Settle 0 (squaring [1; 2]%Z)])
    as Hserved.
  { simpl. repeat split; auto. intros payloads Hp.
    injection Hp as <-. reflexivity. }
  destruct (pointwise_processor_answers_each_job
              (g := fun job => (job * job)%Z) E Hserved Hin) as (j & Hj & ->).
  exists j. split; [ exact Hj | reflexivity ].
Defined.

(** ** More results than jobs *)

(** X6: when the call of the batch processor is fulfilled with more
    results than the batch has jobs, the continuation first calls
    [resolve] of every job with its result, then fails on the first
    result that has no job, and the [catch] block calls [resolve] of
    every job again, with that [TypeError]. Every promise of the batch
    has then had two calls of its [resolve] and holds the value of the
    first: the job's [id] and its own result. *)
Theorem excess_results_resolve_twice
        (T R : Type) (cfg : option BatchingConfig) (w w' : world T R)
        (c : call) (results : list R) (jobs : list (InternalJob T)) :
  reachable cfg w ->
  settle c (Fulfilled results) w = Some w' ->
  frameOf c (suspended (env w)) = Some jobs ->
  length jobs < length results ->
  resolved (env w') =
    resolved (env w) ++ paired jobs results
    ++ resolveWithError jobs (ThrownError undefinedResolve)
  /\ forall i j r,
       nth_error jobs i = Some j -> nth_error results i = Some r ->
       resolutions (resolve j) w' = 2
       /\ settledValue (resolve j) w' =
          Some (JobResult.mk (Job.id (job j)) (Some r) None).
Proof.
  intros Hreach H Hf Hlen. pose proof (sound_reachable Hreach) as Sw.
  destruct (settle_fields H) as (jobs' & Hf' & _ & _ & _ & _ & Hres & _).
  rewrite Hf in Hf'. apply some_eq in Hf'. subst jobs'.
  assert (processBatchResume jobs (Fulfilled results)
          = paired jobs results ++ resolveWithError jobs (ThrownError undefinedResolve))
    as Hcalls.
  { rewrite processBatchResume_fulfilled.
    destruct (Nat.ltb_spec (length jobs) (length results)); [ reflexivity | lia ]. }
  rewrite Hcalls in Hres. split; [ exact Hres | ].
  intros i j r Hj Hr.
  pose proof (batch_NoDup Sw Hf) as Hnd.
  assert (In j jobs) as Hin by apply (nth_error_In _ _ Hj).
  split.
  - destruct (settle_owned Sw H Hf) as (Ho & _ & _ & _).
    assert (count_occ Nat.eq_dec (handlesOf jobs) (resolve j) = 1) as Hone.
    { apply NoDup_count_occ'; [ exact Hnd | ]. apply in_map. exact Hin. }
    rewrite (resolutions_app (resolve j) Hres), map_app, count_occ_app.
    rewrite paired_handles, resolveWithError_handles, firstn_all2 by lia.
    rewrite Hone, (held_unresolved (p := resolve j) Sw); [ reflexivity | ].
    rewrite (Ho (resolve j)). lia.
  - apply settledValue_settle
      with (w := w) (c := c) (o := Fulfilled results) (jobs := jobs)
           (calls := paired jobs results)
           (calls' := resolveWithError jobs (ThrownError undefinedResolve)); auto.
    + apply paired_NoDup. exact Hnd.
    + apply (nth_error_In _ _ (paired_nth Hj Hr)).
Qed.

Lemma excess_results_resolve_twice_witness :
  exists w',
    settle 0 (Fulfilled [1; 4; 9]%Z) twoInFlight = Some w'
    /\ resolutions 1 w' = 2
    /\ settledValue 1 w' = Some (JobResult.mk "2" (Some 4%Z) None).
Proof.
  destruct (settle 0 (Fulfilled [1; 4; 9]%Z) twoInFlight) as [ w' | ] eqn:E;
    [ | discriminate ].
  exists w'. split; [ reflexivity | ].
  assert (reachable (config 2 1000) twoInFlight) as Hreach
      by (exists [Submit job1; Submit job2]; reflexivity).
  destruct (excess_results_resolve_twice
              (jobs := [ {| job := job1; resolve := 0 |};
                         {| job := job2; resolve := 1 |} ])
              Hreach E eq_refl (le_n 3)) as (_ & Hjobs).
  apply (Hjobs 1 {| job := job2; resolve := 1 |} 4%Z eq_refl eq_refl).
Defined.

(** ** A batch size below one *)

Lemma deleteCount_below_one (q : Q) (len : nat) :
  (q < 1)%Q -> deleteCount (Finite q) len = 0.
Proof.
  intros H. unfold Qlt in H. simpl in H. rewrite Z.mul_1_r in H. simpl.
  assert (Qnum q ÷ Z.pos (Qden q) <= 0)%Z as Hq.
  { destruct (Qnum q) as [ | n | n ] eqn:E.
    - rewrite Z.quot_0_l by lia. lia.
    - rewrite Z.quot_small by lia. lia.
    - change (Z.neg n) with (- Z.pos n)%Z. rewrite Z.quot_opp_l by lia.
      assert (0 <= Z.pos n ÷ Z.pos (Qden q))%Z by (apply Z.quot_pos; lia). lia. }
  lia.
Qed.

Lemma processBatchResume_nil (T R : Type) (o : settlement R) :
  processBatchResume (T := T) [] o = [].
Proof.
  destruct o as [ results | e ]; [ | reflexivity ].
  rewrite processBatchResume_fulfilled. simpl. destruct results; reflexivity.
Qed.

(** X8: a batch size below one is kept by the constructor and stops
    the coordinator: every dispatch cycle takes no job off the queue and
    calls the batch processor with no payloads, so all accepted jobs
    stay queued, in order, and no promise is ever resolved. *)
Theorem batchSize_below_one_never_dispatches
        (T R : Type) (cfg : option BatchingConfig) (q : Q) (w : world T R) :
  batchSize (constructor (T := T) cfg) = Finite q ->
  (q < 1)%Q ->
  reachable cfg w ->
  resolved (env w) = []
  /\ map (@job T) (pendingJobs (this w)) = promises (env w)
  /\ Forall (fun payloads => payloads = []) (invoked (env w))
  /\ Forall (fun f => snd f = []) (suspended (env w)).
Proof.
  intros Hcfg Hq Hreach.
  assert (batchSize (this w) = Finite q
          /\ resolved (env w) = []
          /\ map (@job T) (pendingJobs (this w)) = promises (env w)
          /\ Forall (fun payloads => payloads = []) (invoked (env w))
          /\ Forall (fun f => snd f = []) (suspended (env w))) as H; [ | apply H ].
  revert w Hreach.
  apply (reachable_invariant
           (P := fun w => batchSize (this w) = Finite q
                          /\ resolved (env w) = []
                          /\ map (@job T) (pendingJobs (this w)) = promises (env w)
                          /\ Forall (fun payloads => payloads = []) (invoked (env w))
                          /\ Forall (fun f => snd f = []) (suspended (env w)))).
  - simpl. repeat split; auto.
  - intros w ev w' Sw (Hbs & Hr & Hjobs & Hi & Hs) H.
    split; [ rewrite (batchSize_step H); exact Hbs | ]. split.
    + destruct (step_tally Sw H)
        as [ (j & _ & _ & _ & _ & Hr')
           | [ (_ & _ & Hr') | (c & o & jobs & _ & Hf & _ & _ & Hr' & _) ] ];
        rewrite Hr', Hr; try reflexivity.
      pose proof (proj1 (Forall_forall _ _) Hs _ (frameOf_member Hf)) as Hnil.
      simpl in Hnil. subst jobs. apply processBatchResume_nil.
    + destruct (step_shape Sw H)
        as (pushed & Hp & _ & [ (Hq' & Hi' & Hs') | (_ & Hq' & Hi' & Hs') ]).
      * rewrite Hp, Hq', Hi', map_app, Hjobs. repeat split; auto.
        destruct Hs' as [ -> | (c & o & _ & _ & ->) ]; [ exact Hs | ].
        apply Forall_forall. intros f Hin. apply filter_In in Hin.
        apply (proj1 (Forall_forall _ _) Hs f (proj1 Hin)).
      * rewrite Hbs, deleteCount_below_one in Hq', Hi', Hs' by exact Hq.
        simpl in Hq', Hi', Hs'.
        rewrite Hp, Hq', Hi', Hs', map_app, Hjobs. repeat split; auto.
        -- apply Forall_app. split; [ exact Hi | repeat constructor ].
        -- apply Forall_app. split; [ exact Hs | repeat constructor ].
Qed.

Lemma batchSize_below_one_never_dispatches_witness :
  exists w : world Z Z,
    run (create (sizeOnly (Finite (1 # 2)))) [Submit job1; Submit job2; Shutdown] = Some w
    /\ resolved (env w) = []
    /\ map (@job Z) (pendingJobs (this w)) = [job1; job2].
Proof.
  destruct (run (create (R := Z) (sizeOnly (Finite (1 # 2))))
                [Submit job1; Submit job2; Shutdown]) as [ w | ] eqn:E;
    [ | discriminate ].
  exists w. split; [ reflexivity | ].
  assert (reachable (sizeOnly (Finite (1 # 2))) w) as Hreach
      by (exists [Submit job1; Submit job2; Shutdown]; exact E).
  destruct (batchSize_below_one_never_dispatches
              (cfg := sizeOnly (Finite (1 # 2))) (q := 1 # 2) eq_refl eq_refl Hreach)
    as (Hr & Hq & _).
  split; [ exact Hr | ]. rewrite Hq.
  apply some_eq in E. subst w. reflexivity.
Defined.

(** ** The timer fires *)

(** X13: with a batch size that is the positive integer [b], a timer
    is outstanding only while jobs are queued and shutdown has not
    begun, and when it fires the whole queue, fewer than [b] jobs, is
    dispatched as one batch in order, leaving the queue empty and no
    timer outstanding. *)
Theorem timer_flushes_the_queue
        (T R : Type) (cfg : option BatchingConfig) (b : nat) (w : world T R)
        (t : timer) :
  1 <= b -> batchSize (constructor (T := T) cfg) = ofNat b ->
  reachable cfg w ->
  In t (outstandingTimers w) ->
  isShuttingDown (this w) = false
  /\ pendingJobs (this w) <> []
  /\ length (pendingJobs (this w)) < b
  /\ exists w',
       step w (Timeout t) = Some w'
       /\ pendingJobs (this w') = []
       /\ invoked (env w') =
          invoked (env w) ++ [map (fun j => Job.payload (job j)) (pendingJobs (this w))]
       /\ suspended (env w') =
          suspended (env w) ++ [(length (invoked (env w)), pendingJobs (this w))]
       /\ outstandingTimers w' = [].
Proof.
  intros Hb Hcfg Hreach Hin. pose proof (sound_reachable Hreach) as Sw.
  destruct (bounded_reachable Hb Hcfg Hreach) as (Hbs & Hlen & _).
  assert (fires t (env w) = Some (clearTimeout t (env w))) as Hf.
  { unfold fires.
    assert (existsb (fun e => fst e =? t) (timers (env w)) = true) as ->; [ | reflexivity ].
    apply existsb_exists. unfold outstandingTimers in Hin. apply in_map_iff in Hin.
    destruct Hin as (e & He & Hin). exists e. split; [ exact Hin | ].
    apply Nat.eqb_eq. exact He. }
  destruct (fires_batchTimer Sw Hf) as [Hbt Hpb].
  assert (batchTimer (this w) <> None) as Harmed by (rewrite Hbt; discriminate).
  split.
  - destruct (isShuttingDown (this w)) eqn:Eflag; [ | reflexivity ].
    exfalso. apply Harmed. apply (latched_reachable Hreach Eflag).
  - split; [ apply (sound_armed Sw Harmed) | ]. split; [ exact Hlen | ].
    exists (fst (processBatch w)). cbn [step]. rewrite Hf, Hpb.
    destruct (processBatch_this w) as (Hq & _ & _ & _ & Hb2).
    destruct (processBatch_env w) as (_ & _ & _ & _ & Hi & Hs & _).
    destruct (restOf_all (w := w) Hbs) as [Hrest Hbatch]; [ lia | ].
    pose proof (sound_timer (sound_processBatch Sw)) as St. rewrite Hb2 in St.
    rewrite Hq, Hi, Hs, Hrest, Hbatch. repeat split; auto.
Qed.

Lemma timer_flushes_the_queue_witness :
  exists w w' : world Z Z,
    run (create (config 2 1000)) [Submit job1] = Some w
    /\ step w (Timeout 0) = Some w'
    /\ invoked (env w') = [[1%Z]].
Proof.
  destruct (run (create (R := Z) (config 2 1000)) [Submit job1]) as [ w | ] eqn:E;
    [ | discriminate ].
  assert (reachable (config 2 1000) w) as Hreach by (exists [Submit job1]; exact E).
  assert (In 0 (outstandingTimers w)) as Hin
      by (apply some_eq in E; subst w; left; reflexivity).
  destruct (timer_flushes_the_queue (cfg := config 2 1000)
                                    (le_S 1 1 (le_n 1)) eq_refl Hreach Hin)
    as (_ & _ & _ & w' & Hstep & _ & Hi & _).
  exists w, w'. split; [ reflexivity | ]. split; [ exact Hstep | ].
  rewrite Hi. apply some_eq in E. subst w. reflexivity.
Defined.

(** ** A trigger that finds the queue empty *)

(** C2: when a turn that can start a dispatch cycle finds the queue
    empty (after the push, for [submitJob]), nothing further happens:
    the batch processor is not called, no frame is suspended, no
    promise is resolved, and the queue is still empty with no timer
    outstanding. Only [shutdown] can meet an empty queue: [submitJob]
    looks at the queue after appending to it, and the timer's callback
    never runs on an empty queue, because a timer is outstanding only
    while a job is queued. *)
Theorem empty_queue_dispatches_nothing
        (T R : Type) (cfg : option BatchingConfig) (w : world T R)
        (ev : event T R) (w' : world T R) :
  reachable cfg w ->
  step w ev = Some w' ->
  triggers ev = true ->
  pendingJobs (this w) ++ pushedBy w ev = [] ->
  invoked (env w') = invoked (env w)
  /\ suspended (env w') = suspended (env w)
  /\ resolved (env w') = resolved (env w)
  /\ pendingJobs (this w') = []
  /\ outstandingTimers w' = []
  /\ (forall t, ev <> Timeout t)
  /\ (forall j, ev = Submit j -> isShuttingDown (this w) = true).
Proof.
  intros Hreach H Htrig Hempty. pose proof (sound_reachable Hreach) as Sw.
  apply app_eq_nil in Hempty. destruct Hempty as [Hq Hpushed].
  assert (forall t, ev <> Timeout t) as Htimer.
  { intros t ->. cbn [step] in H.
    destruct (fires t (env w)) as [ h | ] eqn:E; [ | discriminate ].
    destruct (fires_batchTimer Sw E) as [Hb _].
    apply (sound_armed Sw); [ rewrite Hb; discriminate | exact Hq ]. }
  assert (forall j, ev = Submit j -> isShuttingDown (this w) = true) as Hsubmit.
  { intros j ->. simpl in Hpushed.
    destruct (isShuttingDown (this w)); [ reflexivity | discriminate ]. }
  destruct (step_exact H) as (Hq' & Hi').
  assert (dispatches w ev = false) as Hno.
  { destruct ev as [ j | | t | c o ]; cbn [dispatches].
    - rewrite (Hsubmit j eq_refl). reflexivity.
    - rewrite Hq. reflexivity.
    - exfalso. apply (Htimer t eq_refl).
    - reflexivity. }
  rewrite Hno in Hq', Hi'. rewrite Hq, Hpushed in Hq'. simpl in Hq'.
  assert (suspended (env w') = suspended (env w)
          /\ resolved (env w') = resolved (env w)) as (Hs & Hr).
  { destruct (step_tally Sw H)
      as [ (j & -> & Hflag & _) | [ (_ & _ & Hr) | (c & o & jobs & -> & _) ] ];
      [ rewrite (Hsubmit j eq_refl) in Hflag; discriminate | | discriminate ].
    split; [ | exact Hr ].
    destruct (step_shape Sw H)
      as (pushed & _ & _ & [ (_ & _ & [ Hs | (c & o & -> & _) ]) | (_ & _ & Hi & _) ]).
    - exact Hs.
    - discriminate.
    - rewrite Hi' in Hi. apply (f_equal (@length _)) in Hi.
      rewrite length_app in Hi. simpl in Hi. lia. }
  pose proof (sound_step Sw H) as Sw'.
  pose proof (sound_timer Sw') as St. pose proof (sound_armed Sw') as Sa.
  repeat split; auto.
  destruct (batchTimer (this w')); [ | exact St ].
  exfalso. apply Sa; [ discriminate | exact Hq' ].
Qed.

Lemma empty_queue_dispatches_nothing_witness :
  invoked (env (shutdown twoInFlight)) = [[1%Z; 2%Z]]
  /\ resolved (env (shutdown twoInFlight)) = []
  /\ shutdownsCompleted (env (shutdown twoInFlight)) = 1.
Proof.
  assert (reachable (config 2 1000) twoInFlight) as Hreach
      by (exists [Submit job1; Submit job2]; reflexivity).
  destruct (empty_queue_dispatches_nothing
              (ev := Shutdown) (w' := shutdown twoInFlight)
              Hreach eq_refl eq_refl eq_refl) as (Hi & _ & Hr & _).
  rewrite Hi, Hr. repeat split.
Defined.

(** ** A batch processor that throws *)

Lemma awaiting_bound (T R : Type) (cfg : option BatchingConfig) (w : world T R) :
  reachable cfg w ->
  forall c, In c (awaiting (env w)) -> c < length (invoked (env w)).
Proof.
  apply (reachable_invariant
           (P := fun w => forall c, In c (awaiting (env w)) ->
                                    c < length (invoked (env w)))).
  - intros c [].
  - intros w0 ev w' Sw Hw H c Hin.
    pose proof (step_shutdowns H) as Hs. destruct (step_exact H) as (_ & Hi).
    assert (length (invoked (env w0)) <= length (invoked (env w'))) as Hmono.
    { rewrite Hi. destruct (dispatches w0 ev); [ rewrite length_app; lia | lia ]. }
    destruct ev as [ j | | t | c0 o ].
    + destruct Hs as [Ha _]. rewrite Ha in Hin. apply Hw in Hin. lia.
    + destruct Hs as [ (_ & Ha & _) | (Hne & Ha & _) ]; rewrite Ha in Hin.
      * apply Hw in Hin. lia.
      * apply in_app_iff in Hin. destruct Hin as [ Hin | [ <- | [] ] ].
        -- apply Hw in Hin. lia.
        -- rewrite Hi. cbn [dispatches].
           destruct (pendingJobs (this w0)); [ congruence | ].
           simpl. rewrite length_app. simpl. lia.
    + destruct Hs as [Ha _]. rewrite Ha in Hin. apply Hw in Hin. lia.
    + destruct Hs as [Ha _]. rewrite Ha in Hin. apply filter_In in Hin.
      destruct Hin as [Hin _]. apply Hw in Hin. lia.
Qed.

Lemma frameOf_fresh (T : Type) (frames : list (call * list (InternalJob T)))
      (c : call) (jobs : list (InternalJob T)) :
  (forall c', In c' (map fst frames) -> c' < c) ->
  frameOf c (frames ++ [(c, jobs)]) = Some jobs
  /\ filter (fun f => negb (fst f =? c)) (frames ++ [(c, jobs)]) = frames.
Proof.
  induction frames as [ | [c' js] more IH ]; simpl; intros H.
  - rewrite Nat.eqb_refl. auto.
  - assert (c' < c) as Hlt by (apply H; left; reflexivity).
    destruct (Nat.eqb_spec c' c) as [E | E]; [ lia | ]. simpl.
    destruct IH as [IH1 IH2]; [ intros c0 H0; apply H; right; exact H0 | ].
    rewrite IH1, IH2. auto.
Qed.

Lemma filter_below (l : list call) (c : call) :
  (forall c', In c' l -> c' < c) ->
  filter (fun c' => negb (c' =? c)) l = l /\ filter (fun c' => c' =? c) l = [].
Proof.
  induction l as [ | c' l IH ]; simpl; intros H; [ auto | ].
  assert (c' < c) as Hlt by (apply H; left; reflexivity).
  destruct (Nat.eqb_spec c' c) as [E | E]; [ lia | ]. simpl.
  destruct IH as [IH1 IH2]; [ intros c0 H0; apply H; right; exact H0 | ].
  rewrite IH1, IH2. auto.
Qed.

(** In a world a coordinator can be in, [processBatch] with a batch
    processor that throws is [processBatch] followed at once by the
    rejection of the call it made: the dispatch turn and then [settle]
    with [Rejected]. What holds of every reachable world therefore
    holds after such a call too. *)
Lemma processBatchCaught_settles (T R : Type) (cfg : option BatchingConfig)
      (e : thrown) (w : world T R) :
  reachable cfg w ->
  settle (length (invoked (env w))) (Rejected e) (fst (processBatch w))
  = Some (processBatchCaught e w).
Proof.
  intros Hreach. pose proof (sound_reachable Hreach) as Sw.
  pose proof (proj2 (sound_calls (sound_clearBatchTimer Sw))) as Hcalls.
  pose proof (awaiting_bound Hreach) as Haw.
  destruct (clearBatchTimer_host w) as (_ & _ & _ & Hi & _ & Ha & _).
  rewrite <- Hi, <- Ha in Haw. rewrite <- Hi.
  unfold processBatch, processBatchCaught.
  set (w1 := clearBatchTimer w) in *.
  destruct (splice (pendingJobs (this w1)) (batchSize (this w1))) as [batch rest].
  cbn [fst]. unfold settle. cbn [env snd suspended].
  destruct (frameOf_fresh batch Hcalls) as [Hf Hfilter].
  destruct (filter_below Haw) as [Hkeep Hnone].
  rewrite Hf. cbn [this fst env snd timers nextTimer promises resolved invoked
                   suspended awaiting shutdownsCompleted processBatchResume].
  rewrite Hfilter, Hkeep, Hnone. reflexivity.
Qed.
